(** * hdlparse: the Verilog documentation parser (verilog_parser.py)

    A shallow embedding of [parse_verilog] and of the caching
    [VerilogExtractor], together with the scanner and the regular
    expressions that feed them.

    Texts are Python 3 [str] values restricted to the ASCII range; a
    Python exception is a value of [exn] carried by [Raise]. *)

From Stdlib Require Import Ascii String NArith Sorted.
From stdpp Require Import gmap strings list.

Open Scope string_scope.
Open Scope list_scope.

(** ** Python exceptions *)

Inductive exn : Type :=
| TypeError
| AttributeError
| IndexError
| ValueError
| IOError
| LexicalError
| Exception (msg : string).

Inductive result (A : Type) : Type :=
| Ok (a : A)
| Raise (e : exn).
Arguments Ok {A} a.
Arguments Raise {A} e.

#[global] Instance result_ret : MRet result := fun _ a => Ok a.
#[global] Instance result_bind : MBind result := fun _ _ f r =>
  match r with
  | Ok a => f a
  | Raise e => Raise e
  end.

#[global] Instance result_fmap : FMap result := fun _ _ f r =>
  match r with
  | Ok a => Ok (f a)
  | Raise e => Raise e
  end.

Definition is_ok {A : Type} (r : result A) : bool :=
  match r with Ok _ => true | Raise _ => false end.

(** ** Python string primitives *)

Module Py.

Definition code (c : ascii) : N := N_of_ascii c.

Definition in_range (lo hi : N) (c : ascii) : bool :=
  (lo <=? code c)%N && (code c <=? hi)%N.

(** [str.isspace] on the ASCII range: TAB..CR, FS..US and the blank. *)
Definition isspace (c : ascii) : bool :=
  in_range 9 13 c || in_range 28 31 c || (code c =? 32)%N.

Definition isdigit (c : ascii) : bool := in_range 48 57 c.

Definition isalpha (c : ascii) : bool :=
  in_range 65 90 c || in_range 97 122 c.

(** [s.lstrip()], [s.rstrip()], [s.strip()] *)
Fixpoint lstrip (s : string) : string :=
  match s with
  | EmptyString => EmptyString
  | String c s' => if isspace c then lstrip s' else s
  end.

Fixpoint rstrip (s : string) : string :=
  match s with
  | EmptyString => EmptyString
  | String c s' =>
      match rstrip s' with
      | EmptyString => if isspace c then EmptyString else String c EmptyString
      | r => String c r
      end
  end.

Definition strip (s : string) : string := lstrip (rstrip s).

(** [sep in s] for a one-character [sep] *)
Fixpoint contains (sep : ascii) (s : string) : bool :=
  match s with
  | EmptyString => false
  | String c s' => Ascii.eqb c sep || contains sep s'
  end.

(** [s.split(sep)] for a one-character [sep]: one more piece than there
    are separators, empty pieces kept. *)
Fixpoint split_on (sep : ascii) (s : string) : list string :=
  match s with
  | EmptyString => [EmptyString]
  | String c s' =>
      let r := split_on sep s' in
      if Ascii.eqb c sep then EmptyString :: r
      else match r with
           | h :: t => String c h :: t
           | [] => [String c EmptyString]
           end
  end.

(** [s.split()]: the maximal runs of non-blank characters. *)
Fixpoint split (s : string) : list string :=
  match s with
  | EmptyString => []
  | String c s' =>
      let r := split s' in
      if isspace c then r
      else match s' with
           | EmptyString => [String c EmptyString]
           | String c' _ =>
               if isspace c' then String c EmptyString :: r
               else match r with
                    | h :: t => String c h :: t
                    | [] => [String c EmptyString]
                    end
           end
  end.

(** [s.replace(a, b)] for one-character [a] and [b] *)
Fixpoint replace (a b : ascii) (s : string) : string :=
  match s with
  | EmptyString => EmptyString
  | String c s' => String (if Ascii.eqb c a then b else c) (replace a b s')
  end.

(** [l[i]] and [l[-1]] *)
Definition index {A : Type} (l : list A) (i : nat) : result A :=
  match l !! i with
  | Some x => Ok x
  | None => Raise IndexError
  end.

Definition index_last {A : Type} (l : list A) : result A :=
  match last l with
  | Some x => Ok x
  | None => Raise IndexError
  end.

End Py.

(** ** Regular expressions

    The fragment of Python's [re] syntax that the token table uses.
    Every quantified sub-pattern of the table ([\s*], [\w+], [.*],
    [.+?], [[^]]+], [#+], ...) repeats a single character class, so
    repetition is a constructor over a class.  Matching is Python's:
    anchored at the cursor, backtracking, alternatives tried left to
    right, greedy repetitions longest first, lazy ones shortest first. *)

Module Re.

Inductive regex : Type :=
| Lit (s : string)                               (* literal text *)
| Set_ (p : ascii → bool)                        (* one character of a class *)
| Rep (greedy : bool) (lo : nat) (p : ascii → bool)
                                                 (* [c*] [c+] [c+?] over a class *)
| Opt (r : regex)                                (* [r?] *)
| Alt (r1 r2 : regex)                            (* [r1|r2] *)
| Cat (r1 r2 : regex)
| Group (i : nat) (r : regex)                    (* capturing group number [i+1] *)
| WordB.                                         (* [\b] *)

(** Character classes *)
Definition space : ascii → bool := Py.isspace.                 (* \s *)
Definition word (c : ascii) : bool :=                           (* \w *)
  Py.isalpha c || Py.isdigit c || Ascii.eqb c "_".
Definition digit : ascii → bool := Py.isdigit.                 (* [0-9] *)
Definition dot (c : ascii) : bool := negb (Ascii.eqb c "010"). (* . *)
Definition not_rbracket (c : ascii) : bool := negb (Ascii.eqb c "]"). (* [^]] *)
Definition is_char (x : ascii) (c : ascii) : bool := Ascii.eqb c x.
Definition one_of (s : string) (c : ascii) : bool := Py.contains c s.
(** [[a-zA-Z0-9`:\s\[\]_-]] *)
Definition port_head (c : ascii) : bool :=
  Py.isalpha c || Py.isdigit c || one_of "`:[]_-" c || Py.isspace c.

(** The cursor of a match in progress: the character before it (for
    [\b]), the number of characters consumed since the match began, and
    the text still ahead. *)
Record cursor : Type := Cursor {
  prev : option ascii;
  taken : nat;
  rest : list ascii;
}.

Definition groups : Type := list (option string).

Definition step1 (c : cursor) : option (ascii * cursor) :=
  match rest c with
  | x :: xs => Some (x, Cursor (Some x) (S (taken c)) xs)
  | [] => None
  end.

Fixpoint eat (s : string) (c : cursor) : option cursor :=
  match s with
  | EmptyString => Some c
  | String x s' =>
      match step1 c with
      | Some (y, c') => if Ascii.eqb x y then eat s' c' else None
      | None => None
      end
  end.

Definition orelse {R : Type} (a b : option R) : option R :=
  match a with
  | Some x => Some x
  | None => b
  end.

(** Repetition of a class, driven by the text ahead. *)
Fixpoint rep {R : Type} (greedy : bool) (p : ascii → bool) (lo : nat)
    (pv : option ascii) (n : nat) (l : list ascii)
    (k : cursor → option R) : option R :=
  let stop := match lo with O => k (Cursor pv n l) | S _ => None end in
  match l with
  | x :: xs =>
      if p x then
        if greedy
        then orelse (rep greedy p (Nat.pred lo) (Some x) (S n) xs k) stop
        else orelse stop (rep greedy p (Nat.pred lo) (Some x) (S n) xs k)
      else stop
  | [] => stop
  end.

Definition at_boundary (c : cursor) : bool :=
  let w o := match o with Some x => word x | None => false end in
  negb (Bool.eqb (w (prev c)) (w (head (rest c)))).

Definition slice (c c' : cursor) : string :=
  string_of_list_ascii (take (taken c' - taken c) (rest c)).

Fixpoint run {R : Type} (r : regex) (c : cursor) (g : groups)
    (k : cursor → groups → option R) : option R :=
  match r with
  | Lit s => match eat s c with Some c' => k c' g | None => None end
  | Set_ p =>
      match step1 c with
      | Some (x, c') => if p x then k c' g else None
      | None => None
      end
  | Rep greedy lo p =>
      rep greedy p lo (prev c) (taken c) (rest c) (fun c' => k c' g)
  | Opt r1 => orelse (run r1 c g k) (k c g)
  | Alt r1 r2 => orelse (run r1 c g k) (run r2 c g k)
  | Cat r1 r2 => run r1 c g (fun c' g' => run r2 c' g' k)
  | Group i r1 =>
      run r1 c g (fun c' g' => k c' (<[i := Some (slice c c')]> g'))
  | WordB => if at_boundary c then k c g else None
  end.

(** [pat.match(text, pos)] for a pattern with [n] groups: the length of
    the match and [m.groups()].  [pv] is the character just before the
    cursor, [ahead] the text from the cursor on. *)
Definition match_ (r : regex) (n : nat) (pv : option ascii)
    (ahead : list ascii) : option (nat * groups) :=
  run r (Cursor pv 0 ahead) (replicate n None)
      (fun c g => Some (taken c, g)).

(** Abbreviations for the shapes the table uses *)
Definition star (p : ascii → bool) : regex := Rep true 0 p.
Definition plus (p : ascii → bool) : regex := Rep true 1 p.
Definition plus_lazy (p : ascii → bool) : regex := Rep false 1 p.
Fixpoint cat (l : list regex) : regex :=
  match l with
  | [] => Lit EmptyString
  | [r] => r
  | r :: l' => Cat r (cat l')
  end.
Fixpoint alt_lits (l : list string) : regex :=
  match l with
  | [] => Set_ (fun _ => false)
  | [s] => Lit s
  | s :: l' => Alt (Lit s) (alt_lits l')
  end.

End Re.

(** ** The token table: [verilog_tokens] *)

Inductive state_name : Type :=
| S_root | S_module | S_parameters | S_module_port | S_block_comment.

Inductive action : Type :=
| A_define | A_endif | A_module | A_block_comment | A_metacomment
| A_parameter_start | A_module_port_start | A_end_module | A_section_meta
| A_param_item | A_port_param | A_end_comment.

#[global] Instance action_eq_dec : EqDecision action.
Proof. solve_decision. Defined.

Inductive target : Type :=
| Push (s : state_name)
| Pop.                                            (* '#pop' *)

(** A rule [(pattern, action, new_state)]; [n_groups] is the number of
    capturing groups of the pattern. *)
Record rule : Type := Rule {
  pattern : Re.regex;
  n_groups : nat;
  rule_action : option action;
  new_state : option target;
}.

Module Pat.
Import Re.

(** [(`ifdef|`ifndef)\s+(\w+)] *)
Definition define : regex :=
  cat [Group 0 (alt_lits ["`ifdef"; "`ifndef"]); plus space; Group 1 (plus word)].
(** [`endif] *)
Definition endif : regex := Lit "`endif".
(** [\bmodule\s+(\w+)\s*] *)
Definition module : regex :=
  cat [WordB; Lit "module"; plus space; Group 0 (plus word); star space].
(** [/\*] *)
Definition block_comment : regex := Lit "/*".
(** [//#+(G)\n] where the group [G] is [.*] *)
Definition metacomment : regex :=
  cat [Lit "//"; plus (is_char "#"); Group 0 (star dot); Lit (String "010" EmptyString)].
(** [//.*\n] *)
Definition line_comment : regex :=
  cat [Lit "//"; star dot; Lit (String "010" EmptyString)].
(** [(signed|integer|realtime|real|time)?\s*(\[[^]]+\])?] *)
Definition parameter_tail : regex :=
  cat [Opt (Group 0 (alt_lits ["signed"; "integer"; "realtime"; "real"; "time"]));
       star space;
       Opt (Group 1 (cat [Lit "["; plus not_rbracket; Lit "]"]))].
(** [parameter\s*(signed|integer|realtime|real|time)?\s*(\[[^]]+\])?] *)
Definition parameter_start : regex :=
  cat [Lit "parameter"; star space; parameter_tail].
(** [(input|inout|output)([a-zA-Z0-9`:\s\[\]_-]+)] *)
Definition module_port_start : regex :=
  cat [Group 0 (alt_lits ["input"; "inout"; "output"]); Group 1 (plus port_head)].
(** [endmodule] *)
Definition end_module : regex := Lit "endmodule".
(** [//#\s*{{(G)}}\n] where the group [G] is [.*] *)
Definition section_meta : regex :=
  cat [Lit "//#"; star space; Lit "{{"; Group 0 (star dot); Lit "}}";
       Lit (String "010" EmptyString)].
(** [\s*parameter\s*(signed|integer|realtime|real|time)?\s*(\[[^]]+\])?] *)
Definition parameter_restart : regex :=
  cat [star space; parameter_start].
(** [\s*(.+?)\s*=\s*([0-9]+)\s*] *)
Definition param_item : regex :=
  cat [star space; Group 0 (plus_lazy dot); star space; Lit "="; star space;
       Group 1 (plus digit); star space].
(** [,] *)
Definition comma : regex := Lit ",".
(** [[);]] *)
Definition close : regex := Set_ (one_of ");").
(** [\s*(input|inout|output)([a-zA-Z0-9`:\s\[\]_-]+)\s*,?] *)
Definition module_port_restart : regex :=
  cat [star space; module_port_start; star space; Opt (Lit ",")].
(** [\s*(\w+)\s*,?] *)
Definition port_param : regex :=
  cat [star space; Group 0 (plus word); star space; Opt (Lit ",")].
(** [\*/] *)
Definition end_comment : regex := Lit "*/".

End Pat.

Definition verilog_tokens (s : state_name) : list rule :=
  match s with
  | S_root =>
      [ Rule Pat.define 2 (Some A_define) None;
        Rule Pat.endif 0 (Some A_endif) None;
        Rule Pat.module 1 (Some A_module) (Some (Push S_module));
        Rule Pat.block_comment 0 (Some A_block_comment) (Some (Push S_block_comment));
        Rule Pat.metacomment 1 (Some A_metacomment) None;
        Rule Pat.line_comment 0 None None ]
  | S_module =>
      [ Rule Pat.define 2 (Some A_define) None;
        Rule Pat.endif 0 (Some A_endif) None;
        Rule Pat.parameter_start 2 (Some A_parameter_start) (Some (Push S_parameters));
        Rule Pat.module_port_start 2 (Some A_module_port_start) (Some (Push S_module_port));
        Rule Pat.end_module 0 (Some A_end_module) (Some Pop);
        Rule Pat.block_comment 0 (Some A_block_comment) (Some (Push S_block_comment));
        Rule Pat.section_meta 1 (Some A_section_meta) None;
        Rule Pat.line_comment 0 None None ]
  | S_parameters =>
      [ Rule Pat.define 2 (Some A_define) None;
        Rule Pat.endif 0 (Some A_endif) None;
        Rule Pat.parameter_restart 2 (Some A_parameter_start) None;
        Rule Pat.param_item 2 (Some A_param_item) None;
        Rule Pat.comma 0 None None;
        Rule Pat.close 0 None (Some Pop) ]
  | S_module_port =>
      [ Rule Pat.define 2 (Some A_define) None;
        Rule Pat.endif 0 (Some A_endif) None;
        Rule Pat.module_port_restart 2 (Some A_module_port_start) None;
        Rule Pat.port_param 1 (Some A_port_param) None;
        Rule Pat.close 0 None (Some Pop);
        Rule Pat.section_meta 1 (Some A_section_meta) None;
        Rule Pat.line_comment 0 None None ]
  | S_block_comment =>
      [ Rule Pat.end_comment 0 (Some A_end_comment) (Some Pop) ]
  end.

(** ** The scanner *)

(** A token [(pos, action, groups)] *)
Record token : Type := Token {
  pos : nat;
  tok_action : action;
  tok_groups : list (option string);
}.

Module MiniLexer.

(** Modelled from the spec: the rule selection of the scanner of
    minilexer.py (not among the sources).  The first rule of the list,
    in table order, whose pattern matches at the cursor. *)
Fixpoint first_match (rules : list rule) (pv : option ascii)
    (ahead : list ascii) : option (rule * nat * list (option string)) :=
  match rules with
  | [] => None
  | r :: rules' =>
      match Re.match_ (pattern r) (n_groups r) pv ahead with
      | Some (n, g) => Some (r, n, g)
      | None => first_match rules' pv ahead
      end
  end.

(** What a scan ends with: the end of the text, a pop below the root
    state, or a rule that matched without consuming anything (the loop
    would not advance). *)
Inductive ending : Type :=
| End_of_text
| Stack_underflow
| Stuck.

(** The character before the cursor after [n] characters of [ahead]
    have been consumed. *)
Definition prev_after (pv : option ascii) (n : nat) (ahead : list ascii)
  : option ascii :=
  match n with
  | O => pv
  | S m => ahead !! m
  end.

(** Modelled from the spec: the scanner [MiniLexer.run] of minilexer.py,
    which is not among the sources.  A stack of state names starts as
    [root]; at the cursor the rules of the top state are tried in
    table order and the first that matches wins; the cursor moves to the
    end of the match, the rule's push target is pushed or, for a pop
    marker, the top state is popped; a rule with an action tag yields a
    token, one without is consumed silently.  Where no rule matches the
    scanner advances by one character (the fallback of section 4.2 of
    the specification, on which its scenarios rely).  [fuel] bounds the
    number of iterations; a text of [n] characters needs at most
    [n + 1]. *)
Fixpoint scan (fuel : nat) (stack : list state_name) (top : state_name)
    (p : nat) (pv : option ascii) (ahead : list ascii)
  : list token * ending :=
  match fuel with
  | O => ([], Stuck)
  | S fuel' =>
      match ahead with
      | [] => ([], End_of_text)
      | x :: xs =>
          match first_match (verilog_tokens top) pv ahead with
          | None => scan fuel' stack top (S p) (Some x) xs
          | Some (r, n, g) =>
              let out :=
                match rule_action r with
                | Some a => [Token p a g]
                | None => []
                end in
              let continue stack' top' :=
                match n with
                | O => (out, Stuck)
                | S _ =>
                    let '(ts, e) :=
                      scan fuel' stack' top' (p + n)
                           (prev_after pv n ahead) (drop n ahead) in
                    (out ++ ts, e)
                end in
              match new_state r with
              | None => continue stack top
              | Some (Push s) => continue (top :: stack) s
              | Some Pop =>
                  match stack with
                  | [] => (out, Stack_underflow)
                  | top' :: stack' => continue stack' top'
                  end
              end
          end
      end
  end.

(** Modelled from the spec: [lex.run(text)] of minilexer.py (not among
    the sources), from the state [root] at the start of the text. *)
Definition run (text : string) : list token * ending :=
  let l := list_ascii_of_string text in
  scan (S (length l)) [] S_root 0 None l.

End MiniLexer.

(** ** Data records *)

Inductive kind_tag : Type := unknown | module.

(** [VerilogParameter]: a parameter or a port of a module.  Every
    construction in the parser passes a string as [data_type]. *)
Record VerilogParameter : Type := mkParameter {
  p_name : string;
  p_kind : kind_tag;
  p_desc : option string;
  p_define : option string;
  p_mode : option string;
  p_data_type : string;
  p_default_value : option string;
}.

(** [VerilogParameter(name, mode, data_type, default_value, define=define)] *)
Definition new_parameter (name : string) (mode : option string)
    (data_type : string) (default_value define : option string)
  : VerilogParameter :=
  mkParameter name unknown None define mode data_type default_value.

(** [VerilogModule].  [G] is what the [generics] attribute holds: the
    reference to the parser's list while parsing, the list itself in the
    value handed to the caller. *)
Record VerilogModule_ (G : Type) : Type := mkModule {
  m_name : option string;
  m_kind : kind_tag;
  m_desc : list string;
  m_define : option string;
  m_generics : G;
  m_ports : list VerilogParameter;
  m_sections : gmap nat string;
}.
Arguments mkModule {G}.
Arguments m_name {G}.
Arguments m_kind {G}.
Arguments m_desc {G}.
Arguments m_define {G}.
Arguments m_generics {G}.
Arguments m_ports {G}.
Arguments m_sections {G}.

Abbreviation VerilogModule := (VerilogModule_ (list VerilogParameter)).

(** ** [collections.OrderedDict] *)

Section OrderedDict.
Context {K V : Type} `{EqDecision K}.

Definition odict : Type := list (K * V).

(** [d[k] = v]: an existing key keeps its place and takes the new
    value, a new key goes to the end. *)
Fixpoint od_set (k : K) (v : V) (d : odict) : odict :=
  match d with
  | [] => [(k, v)]
  | (k', v') :: d' =>
      if decide (k' = k) then (k, v) :: d' else (k', v') :: od_set k v d'
  end.

Fixpoint od_get (k : K) (d : odict) : option V :=
  match d with
  | [] => None
  | (k', v') :: d' => if decide (k' = k) then Some v' else od_get k d'
  end.

Definition od_keys (d : odict) : list K := d.*1.
Definition od_values (d : odict) : list V := d.*2.

(** [next(reversed(d))]: the key inserted last. *)
Definition od_last_key (d : odict) : option K := last (od_keys d).
End OrderedDict.
Arguments odict : clear implicits.

(** [dict(pairs)]: a later pair with the same key wins. *)
Definition dict_of (pairs : list (nat * string)) : gmap nat string :=
  foldl (fun m kv => <[kv.1 := kv.2]> m) ∅ pairs.

(** [l.sort(key=lambda x: x.name)]: a stable sort on the names, compared
    as strings. *)
Definition name_le (x y : VerilogParameter) : Prop :=
  String.leb (p_name x) (p_name y) = true.

Fixpoint insert_by_name (x : VerilogParameter) (l : list VerilogParameter)
  : list VerilogParameter :=
  match l with
  | [] => [x]
  | y :: l' =>
      if String.leb (p_name x) (p_name y) then x :: l
      else y :: insert_by_name x l'
  end.

Definition sort_by_name (l : list VerilogParameter) : list VerilogParameter :=
  foldr insert_by_name [] l.

(** ** [parse_verilog] *)

(** A pending port item and the key of [ports]: [(ident, define)]. *)
Definition port_key : Type := string * option string.

(** The local variables of [parse_verilog].  [generics] refers to a list
    object in [store]: the module records appended to [objects] share
    that object with the parser until the next module opens.  The locals
    [kind], [saved_type], [parameters] and [array_range_start_pos] are
    never read and are left out. *)
Record locals : Type := mkLocals {
  name : option string;
  mode : string;
  ptype : string;
  metacomments : list string;
  param_items : list port_key;
  generics : nat;
  store : list (list VerilogParameter);
  ports : odict port_key VerilogParameter;
  sections : list (nat * string);
  port_param_index : nat;
  last_item : option port_key;
  current_define : list string;
  objects : list (VerilogModule_ nat);
}.

Definition initial : locals :=
  {| name := None; mode := "input"; ptype := "wire";
     metacomments := []; param_items := [];
     generics := 0; store := [[]];
     ports := []; sections := []; port_param_index := 0;
     last_item := None; current_define := []; objects := [] |}.

(** [groups[i]] where the code needs a string; every group read this way
    is mandatory in its pattern. *)
Definition group (gs : list (option string)) (i : nat) : result string :=
  match gs !! i with
  | Some (Some s) => Ok s
  | Some None => Raise TypeError
  | None => Raise IndexError
  end.

(** [a, b = groups] *)
Definition unpack2 (gs : list (option string))
  : result (option string * option string) :=
  match gs with
  | [a; b] => Ok (a, b)
  | _ => Raise ValueError
  end.

(** [None if len(current_define) == 0 else current_define[-1]] *)
Definition innermost (current_define : list string) : option string :=
  match current_define with
  | [] => None
  | _ => last current_define
  end.

(** What [vec_range] holds in the port-header branch: the one-element
    tuple [(None,)] it is initialised with (line 184 ends in a comma), or
    the string built from the first bracket. *)
Inductive vec_range_value : Type :=
| VR_tuple
| VR_str (s : string).

(** The body of the [module_port_start] branch up to [new_ptype]. *)
Definition port_header (new_mode second_group : string) : result string :=
  let second_group := Py.strip second_group in
  '(net_type, vec_range, array_spec) ←
    ((if Py.contains "[" second_group then
       let parts := Py.split_on "[" second_group in
       first_element ← Py.strip <$> Py.index parts 0;
       let net_type :=
         if decide (first_element = EmptyString) then None else Some first_element in
       part1 ← Py.index parts 1;
       let width := Py.split_on "]" (Py.strip part1) in
       width0 ← Py.index width 0;
       let vec_range := VR_str ("[" +:+ width0 +:+ "]") in
       if decide (length parts = 2) then
         ident ← Py.strip <$> Py.index width 1;
         Ok (net_type, vec_range, None)
       else if decide (length parts = 3) then
         part2 ← Py.index parts 2;
         let array := Py.split_on "]" (Py.strip part2) in
         array0 ← Py.index array 0;
         let array_spec := "[" +:+ Py.strip array0 +:+ "]" in
         ident ← Py.strip <$> Py.index array 1;
         Ok (net_type, vec_range, Some array_spec)
       else
         Raise (Exception ("Unknown port format: " +:+ new_mode +:+ " "
                             +:+ second_group))
     else
       ident ← Py.index_last (Py.split second_group);
       if decide (1 < length (Py.split second_group)) then
         net_type ← Py.index (Py.split second_group) 0;
         Ok (Some net_type, VR_tuple, None)
       else Ok (None, VR_tuple, None))
     : result (option string * vec_range_value * option string));
  let new_ptype := EmptyString in
  let new_ptype :=
    match net_type with
    | Some t => new_ptype +:+ t
    | None => new_ptype
    end in
  (* [signed] is always [None] *)
  new_ptype ←
    match vec_range with
    | VR_str v => Ok (new_ptype +:+ " " +:+ v)
    | VR_tuple => Raise TypeError
    end;
  let new_ptype :=
    match array_spec with
    | Some a => new_ptype +:+ a
    | None => new_ptype
    end in
  Ok new_ptype.

(** [for i in param_items: ports[i] = VerilogParameter(i[0], mode, ptype, define=i[1])] *)
Definition complete_pending (mode ptype : string) (param_items : list port_key)
    (ports : odict port_key VerilogParameter)
  : odict port_key VerilogParameter :=
  foldl (fun d i => od_set i (new_parameter i.1 (Some mode) ptype None i.2) d)
        ports param_items.

(** One iteration of the loop over the tokens. *)
Definition step (l : locals) (t : token) : result locals :=
  let groups := tok_groups t in
  match tok_action t with
  | A_metacomment =>
      match last_item l with
      | None =>
          g0 ← group groups 0;
          Ok {| name := name l; mode := mode l; ptype := ptype l;
                metacomments := metacomments l ++ [g0];
                param_items := param_items l;
                generics := generics l; store := store l;
                ports := ports l; sections := sections l;
                port_param_index := port_param_index l;
                last_item := last_item l;
                current_define := current_define l; objects := objects l |}
      | Some _ =>
          (* [last_item] is a key of [ports], a tuple *)
          g0 ← group groups 0;
          Raise AttributeError
      end
  | A_section_meta =>
      g0 ← group groups 0;
      Ok {| name := name l; mode := mode l; ptype := ptype l;
            metacomments := metacomments l; param_items := param_items l;
            generics := generics l; store := store l;
            ports := ports l;
            sections := sections l ++ [(port_param_index l, g0)];
            port_param_index := port_param_index l;
            last_item := last_item l;
            current_define := current_define l; objects := objects l |}
  | A_define =>
      g0 ← group groups 0;
      g1 ← group groups 1;
      Ok {| name := name l; mode := mode l; ptype := ptype l;
            metacomments := metacomments l; param_items := param_items l;
            generics := generics l; store := store l;
            ports := ports l; sections := sections l;
            port_param_index := port_param_index l;
            last_item := last_item l;
            current_define := current_define l ++ [g0 +:+ "=" +:+ g1];
            objects := objects l |}
  | A_endif =>
      if decide (length (current_define l) = 0) then
        Raise (Exception "No matching '`ifdef'' or '`ifndef' for the '`endif'")
      else
          Ok {| name := name l; mode := mode l; ptype := ptype l;
                metacomments := metacomments l; param_items := param_items l;
                generics := generics l; store := store l;
                ports := ports l; sections := sections l;
                port_param_index := port_param_index l;
                last_item := last_item l;
                current_define := removelast (current_define l);
                objects := objects l |}
  | A_module =>
      g0 ← group groups 0;
      Ok {| name := Some g0; mode := mode l; ptype := ptype l;
            metacomments := metacomments l; param_items := [];
            generics := length (store l); store := store l ++ [[]];
            ports := []; sections := []; port_param_index := 0;
            last_item := last_item l;
            current_define := current_define l; objects := objects l |}
  | A_parameter_start =>
      '(net_type, vec_range) ← unpack2 groups;
      let new_ptype := EmptyString in
      let new_ptype :=
        match net_type with
        | Some t => new_ptype +:+ t
        | None => new_ptype
        end in
      let new_ptype :=
        match vec_range with
        | Some v => new_ptype +:+ " " +:+ v
        | None => new_ptype
        end in
      Ok {| name := name l; mode := mode l; ptype := new_ptype;
            metacomments := metacomments l; param_items := param_items l;
            generics := generics l; store := store l;
            ports := ports l; sections := sections l;
            port_param_index := port_param_index l;
            last_item := last_item l;
            current_define := current_define l; objects := objects l |}
  | A_param_item =>
      g0 ← group groups 0;
      g1 ← group groups 1;
      let p := new_parameter g0 (Some "in") (ptype l) (Some g1)
                 (innermost (current_define l)) in
      Ok {| name := name l; mode := mode l; ptype := ptype l;
            metacomments := metacomments l; param_items := param_items l;
            generics := generics l;
            store := alter (fun g => g ++ [p]) (generics l) (store l);
            ports := ports l; sections := sections l;
            port_param_index := port_param_index l;
            last_item := last_item l;
            current_define := current_define l; objects := objects l |}
  | A_module_port_start =>
      (* both groups are mandatory in the patterns of this action *)
      '(new_mode, second_group) ← unpack2 groups;
      second_group ← from_option Ok (Raise AttributeError) second_group;
      new_mode ← from_option Ok (Raise TypeError) new_mode;
      new_ptype ← port_header new_mode second_group;
      (* Complete pending items *)
      let ports' := complete_pending (mode l) (ptype l) (param_items l) (ports l) in
      let last_item' :=
        if decide (0 < length ports') then od_last_key ports'
        else last_item l in
      (* Start with new mode *)
      Ok {| name := name l; mode := new_mode; ptype := new_ptype;
            metacomments := metacomments l; param_items := [];
            generics := generics l; store := store l;
            ports := ports'; sections := sections l;
            port_param_index := port_param_index l;
            last_item := last_item';
            current_define := current_define l; objects := objects l |}
  | A_port_param =>
      ident ← group groups 0;
      Ok {| name := name l; mode := mode l; ptype := ptype l;
            metacomments := metacomments l;
            param_items :=
              param_items l ++ [(ident, innermost (current_define l))];
            generics := generics l; store := store l;
            ports := ports l; sections := sections l;
            port_param_index := S (port_param_index l);
            last_item := last_item l;
            current_define := current_define l; objects := objects l |}
  | A_end_module =>
      if decide (0 < length (current_define l)) then
        top ← Py.index_last (current_define l);
        Raise (Exception ("'" +:+ Py.replace "=" " " top
                            +:+ "' is not terminated with a matching '`endif'"))
      else
          (* Finish any pending ports *)
          let ports' :=
            complete_pending (mode l) (ptype l) (param_items l) (ports l) in
          let lports := sort_by_name (od_values ports') in
          let vobj :=
            mkModule (name l) module (metacomments l)
                     (innermost (current_define l)) (generics l) lports
                     (dict_of (sections l)) in
          Ok {| name := name l; mode := mode l; ptype := ptype l;
                metacomments := []; param_items := param_items l;
                generics := generics l; store := store l;
                ports := ports'; sections := sections l;
                port_param_index := port_param_index l;
                last_item := None;
                current_define := current_define l;
                objects := objects l ++ [vobj] |}
  | A_block_comment | A_end_comment => Ok l
  end.

(** The loop: the tokens are consumed in order and the first exception
    ends it. *)
Fixpoint loop (l : locals) (ts : list token) : result locals :=
  match ts with
  | [] => Ok l
  | t :: ts' => l' ← step l t; loop l' ts'
  end.

(** The list a module record's [generics] refers to when the caller
    receives it. *)
Definition deref (store : list (list VerilogParameter))
    (m : VerilogModule_ nat) : VerilogModule :=
  mkModule (m_name m) (m_kind m) (m_desc m) (m_define m)
           (default [] (store !! m_generics m)) (m_ports m) (m_sections m).

Definition returned (l : locals) : list VerilogModule :=
  deref (store l) <$> objects l.

(** [parse_verilog] on the token sequence of the scanner *)
Definition parse_tokens (ts : list token) : result (list VerilogModule) :=
  returned <$> loop initial ts.

(** [parse_verilog(text)]: the loop runs over the tokens as the scanner
    yields them, so an exception of the loop comes before a failure of
    the scanner further on in the text.  (The scanner never fails: it
    reaches the end of every text, lemma [run_ends].) *)
Definition parse_verilog (text : string) : result (list VerilogModule) :=
  let '(ts, e) := MiniLexer.run text in
  l ← loop initial ts;
  match e with
  | MiniLexer.End_of_text => Ok (returned l)
  | _ => Raise LexicalError
  end.

(** ** [VerilogExtractor] *)

(** The classes a [type_filter] can name. *)
Inductive pyclass : Type :=
| C_object | C_VerilogObject | C_VerilogParameter | C_VerilogModule | C_other.

(** [isinstance(o, c)] for a module record [o] *)
Definition isinstance_module (c : pyclass) : bool :=
  match c with
  | C_object | C_VerilogObject | C_VerilogModule => true
  | C_VerilogParameter | C_other => false
  end.

(** [[o for o in objects if isinstance(o, type_filter)]] under
    [if type_filter:] *)
Definition apply_filter (type_filter : option pyclass)
    (objects : list VerilogModule) : list VerilogModule :=
  match type_filter with
  | Some c => List.filter (fun _ => isinstance_module c) objects
  | None => objects
  end.

(** What a call does to the outside: it opens and reads a file, it runs
    the parser on a text. *)
Inductive event : Type :=
| Read_file (fname : string)
| Parse_text (text : string).

(** The file system at the time of a call: what opening and reading a
    path gives. *)
Definition filesystem : Type := string → result string.

Record VerilogExtractor : Type := mkExtractor {
  object_cache : gmap string (list VerilogModule);
}.

(** [VerilogExtractor()] *)
Definition new_extractor : VerilogExtractor := mkExtractor ∅.

(** [self.extract_objects(fname, type_filter)]: the value returned or the
    exception raised, the extractor afterwards, and the events of the
    call in order. *)
Definition extract_objects (fs : filesystem) (self : VerilogExtractor)
    (fname : string) (type_filter : option pyclass)
  : result (list VerilogModule) * VerilogExtractor * list event :=
  match object_cache self !! fname with
  | Some objects => (Ok (apply_filter type_filter objects), self, [])
  | None =>
      match fs fname with
      | Raise e => (Raise e, self, [Read_file fname])
      | Ok text =>
          match parse_verilog text with
          | Raise e => (Raise e, self, [Read_file fname; Parse_text text])
          | Ok objects =>
              (Ok (apply_filter type_filter objects),
               mkExtractor (<[fname := objects]> (object_cache self)),
               [Read_file fname; Parse_text text])
          end
      end
  end.

(** [self.extract_objects_from_source(text, type_filter)] *)
Definition extract_objects_from_source (self : VerilogExtractor)
    (text : string) (type_filter : option pyclass)
  : result (list VerilogModule) :=
  apply_filter type_filter <$> parse_verilog text.

(** A call of [extract_objects] and a sequence of calls on one
    extractor, each under the file system of its time. *)
Record call : Type := Call {
  call_fs : filesystem;
  call_fname : string;
  call_filter : option pyclass;
}.

Definition after_calls (self : VerilogExtractor) (cs : list call)
  : VerilogExtractor :=
  foldl (fun s c => (extract_objects (call_fs c) s (call_fname c) (call_filter c)).1.2)
        self cs.

(** ** Auxiliary notions for the proofs *)

(** A pattern that cannot match the empty text. *)
Fixpoint nonnull (r : Re.regex) : bool :=
  match r with
  | Re.Lit s => negb (String.eqb s EmptyString)
  | Re.Set_ _ => true
  | Re.Rep _ lo _ => negb (Nat.eqb lo 0)
  | Re.Opt _ => false
  | Re.Alt r1 r2 => nonnull r1 && nonnull r2
  | Re.Cat r1 r2 => nonnull r1 || nonnull r2
  | Re.Group _ r1 => nonnull r1
  | Re.WordB => false
  end.

Definition is_root (s : state_name) : bool :=
  match s with S_root => true | _ => false end.

(** What the scanner relies on in a rule of state [s]: its pattern
    consumes something, it pops only above the root and never pushes the
    root. *)
Definition rule_ok (s : state_name) (r : rule) : bool :=
  nonnull (pattern r) &&
  match new_state r with
  | None => true
  | Some Pop => negb (is_root s)
  | Some (Push s') => negb (is_root s')
  end.

(** The shape of the scanner's stack: [root] at the bottom and nowhere
    else. *)
Fixpoint stack_ok (stack : list state_name) (top : state_name) : Prop :=
  match stack with
  | [] => top = S_root
  | top' :: stack' => is_root top = false ∧ stack_ok stack' top'
  end.

(** The key under which [ports] holds a record. *)
Definition key_of (p : VerilogParameter) : port_key := (p_name p, p_define p).

Definition has_key (k : port_key) (p : VerilogParameter) : Prop := key_of p = k.

#[global] Instance has_key_dec k p : Decision (has_key k p).
Proof. unfold has_key. apply _. Defined.

(** [ports] maps pairwise distinct keys to records built from them. *)
Definition ports_ok (d : odict port_key VerilogParameter) : Prop :=
  NoDup (od_keys d) ∧ Forall (fun e => key_of e.2 = e.1) d.

(** What every record appended to [objects] satisfies. *)
Definition emitted_ok (m : VerilogModule_ nat) : Prop :=
  StronglySorted name_le (m_ports m) ∧ m_define m = None.

Definition no_matching_msg : string :=
  "No matching '`ifdef'' or '`ifndef' for the '`endif'".

Definition unterminated_msg (top : string) : string :=
  "'" +:+ Py.replace "=" " " top
      +:+ "' is not terminated with a matching '`endif'".

Definition nl : string := String "010" EmptyString.

(** ** Sample texts *)

(** Scenario A of the specification *)
Definition scenario_A : string :=
  "module foo ( input a, input [7:0] b, output reg [3:0] c ); endmodule".

(** Scenario E of the specification *)
Definition scenario_E : string :=
  "module m ( input [7:0][3:0] d ); endmodule".

(** Scenario C: a guard opened and not closed before [endmodule] *)
Definition scenario_C : string :=
  "module m ( `ifdef FOO input [1:0] x, a ); endmodule".

(** Scenario D: a bare [`endif] *)
Definition scenario_D : string := "`endif" +:+ nl.

(** A metacomment line after the port [b] has been completed *)
Definition trailing_note : string :=
  "module m ( input [1:0] a, b, input [1:0] c );" +:+ nl +:+
  "//# note" +:+ nl +:+ "endmodule" +:+ nl.

(** The identifier [a] listed twice, outside and inside a guard *)
Definition two_guards : string :=
  "module m ( input [1:0] x, a, `ifdef FOO a, `endif input [1:0] y ); endmodule".

(** The identifier [a] listed twice under no guard, under two headers *)
Definition same_guard : string :=
  "module m ( input [1:0] x, a, input reg [3:0] y, a ); endmodule".

(** The identifier [a] listed under the header [input [1:0] x] and again
    under the later header [output reg [3:0] y] *)
Definition redeclared : string :=
  "module m ( input [1:0] x, a, output reg [3:0] y, a ); endmodule".

(** The same module with a parameter declared in its body *)
Definition redeclared_then_parameter : string :=
  "module m ( input [1:0] x, a, output reg [3:0] y, a ); parameter integer P = 1; endmodule".

(** Three ports listed in descending order *)
Definition descending : string :=
  "module m ( input [1:0] x, c, b, a ); endmodule".

(** A complete module followed by a guard that is never closed *)
Definition open_at_end : string :=
  descending +:+ nl +:+ "`ifdef FOO" +:+ nl.

(** A guard opened and closed inside the port list *)
Definition guarded_port : string :=
  "module m ( input [1:0] x, `ifdef FOO a, `endif b ); endmodule".

(** A port completed under mode [input] with the given type and guard *)
Definition input_port (name data_type : string) (define : option string)
  : VerilogParameter :=
  new_parameter name (Some "input") data_type None define.

(** A module record without description, generics or sections *)
Definition plain_module (name : string) (ports : list VerilogParameter)
  : VerilogModule :=
  mkModule (Some name) module [] None [] ports ∅.

(** The tokens of a text, and the parser's locals after them *)
Definition tokens_of (text : string) : list token := (MiniLexer.run text).1.

Definition locals_after (ts : list token) : locals :=
  match loop initial ts with
  | Ok l => l
  | Raise _ => initial
  end.

(** A file system with the single file [a.v] *)
Definition one_file (text : string) : filesystem :=
  fun fname => if decide (fname = "a.v") then Ok text else Raise IOError.

(** ** Further functions of the module *)

(** [VerilogExtractor.is_array(data_type)] *)
Definition is_array (data_type : string) : bool := Py.contains "[" data_type.

(** [str.lower()] on the ASCII range *)
Definition lower_char (c : ascii) : ascii :=
  if Py.in_range 65 90 c then ascii_of_N (Py.code c + 32) else c.

Fixpoint lower (s : string) : string :=
  match s with
  | EmptyString => EmptyString
  | String c s' => String (lower_char c) (lower s')
  end.

(** [p.rfind(c)]: the index of the last occurrence, [None] for -1.
    [i] is the index of the head of [l] and [acc] the last occurrence
    seen before it. *)
Fixpoint rfind_from (i : nat) (c : ascii) (l : list ascii) (acc : option nat)
  : option nat :=
  match l with
  | [] => acc
  | x :: l' => rfind_from (S i) c l' (if Ascii.eqb x c then Some i else acc)
  end.

Definition rfind (c : ascii) (l : list ascii) : option nat :=
  rfind_from 0 c l None.

(** [os.path.splitext(p)[1]] on a POSIX system: the text from the last
    dot on, when that dot comes after the last slash and some character
    between the slash and the dot is not a dot; the empty text
    otherwise. *)
Definition splitext_ext (p : string) : string :=
  let l := list_ascii_of_string p in
  let sepIndex := rfind "/" l in
  let dotIndex := rfind "." l in
  match dotIndex with
  | None => EmptyString
  | Some d =>
      let filenameIndex :=
        match sepIndex with Some s => S s | None => 0 end in
      if decide (filenameIndex ≤ d)%nat then
        (* skip all leading dots *)
        if existsb (fun x => negb (Ascii.eqb x "."))
                   (take (d - filenameIndex) (drop filenameIndex l))
        then string_of_list_ascii (drop d l)
        else EmptyString
      else EmptyString
  end.

(** [is_verilog(fname)] *)
Definition is_verilog (fname : string) : bool :=
  let e := lower (splitext_ext fname) in
  bool_decide (e = ".vlog") || bool_decide (e = ".v").

(** ** Further notions for the proofs *)

(** The number of occurrences of a character *)
Fixpoint count_char (c : ascii) (s : string) : nat :=
  match s with
  | EmptyString => 0
  | String x s' => (if Ascii.eqb x c then 1 else 0) + count_char c s'
  end.

(** A text made of blanks only *)
Fixpoint blank (s : string) : bool :=
  match s with
  | EmptyString => true
  | String x s' => Py.isspace x && blank s'
  end.

(** The names under which the modules of a token sequence close, in
    the order of their [end_module] tokens; [cur] is the name in force
    at the start. *)
Fixpoint closing_names (cur : option string) (ts : list token)
  : list (option string) :=
  match ts with
  | [] => []
  | t :: ts' =>
      match tok_action t with
      | A_module =>
          closing_names
            (match tok_groups t with Some s :: _ => Some s | _ => cur end) ts'
      | A_end_module => cur :: closing_names cur ts'
      | _ => closing_names cur ts'
      end
  end.

(** What tells a port from a generic in the records of a module *)
Definition port_shape (p : VerilogParameter) : Prop :=
  p_kind p = unknown ∧ p_desc p = None ∧ p_default_value p = None ∧
  is_Some (p_mode p).

Definition generic_shape (p : VerilogParameter) : Prop :=
  p_kind p = unknown ∧ p_desc p = None ∧ is_Some (p_default_value p) ∧
  p_mode p = Some "in".

(** The depth of open guards after a token sequence that starts at
    depth [d]; [None] when an [`endif] comes at depth 0. *)
Fixpoint guard_depth (d : nat) (ts : list token) : option nat :=
  match ts with
  | [] => Some d
  | t :: ts' =>
      match tok_action t with
      | A_define => guard_depth (S d) ts'
      | A_endif =>
          match d with
          | O => None
          | S d' => guard_depth d' ts'
          end
      | _ => guard_depth d ts'
      end
  end.

(** A token sequence without [endmodule] *)
Definition no_end_module (ts : list token) : Prop :=
  Forall (fun t => tok_action t ≠ A_end_module) ts.

(** Two modules closed and a third left open *)
Definition three_modules : string :=
  "module p ; endmodule module q ; endmodule module r ;".

(** A module with parameters and guarded items *)
Definition with_parameters : string :=
  "module m #(parameter integer [3:0] W = 8)"
  +:+ " ( input [1:0] x, a, `ifndef SMALL b, `endif c ); endmodule".

(** A text with a character other than the dot *)
Fixpoint has_non_dot (s : string) : bool :=
  match s with
  | EmptyString => false
  | String x s' => negb (Ascii.eqb x ".") || has_non_dot s'
  end.

(** A directory prefix: nothing, or a text that ends with a slash *)
Definition dir_prefix (dir : string) : Prop :=
  dir = EmptyString ∨ ∃ d, dir = d +:+ "/".

(** *** Groups of a match *)

(** Group [i] holds a text. *)
Definition bound (g : list (option string)) (i : nat) : Prop :=
  ∃ s, g !! i = Some (Some s).

(** Groups that every match of a pattern sets: those not under an option
    or an alternative. *)
Fixpoint binds (r : Re.regex) : list nat :=
  match r with
  | Re.Cat r1 r2 => binds r1 ++ binds r2
  | Re.Group i r1 => i :: binds r1
  | _ => []
  end.

(** What the parser does with the groups of a token, by action: the
    number it unpacks them into, and the indices it reads as strings. *)
Definition unpacked (a : action) : option nat :=
  match a with
  | A_parameter_start | A_module_port_start => Some 2
  | _ => None
  end.

Definition reads (a : action) : list nat :=
  match a with
  | A_metacomment | A_section_meta | A_module | A_port_param => [0]
  | A_define | A_param_item | A_module_port_start => [0; 1]
  | _ => []
  end.

Definition token_ok (t : token) : Prop :=
  (∀ n, unpacked (tok_action t) = Some n → length (tok_groups t) = n) ∧
  (∀ i, i ∈ reads (tok_action t) → bound (tok_groups t) i).

(** The same, checked on a rule of the table. *)
Definition rule_groups_ok (r : rule) : bool :=
  match rule_action r with
  | None => true
  | Some a =>
      match unpacked a with
      | Some n => Nat.eqb (n_groups r) n
      | None => true
      end &&
      forallb (fun i => Nat.ltb i (n_groups r) &&
                        bool_decide (i ∈ binds (pattern r)))
              (reads a)
  end.

(** *** The states of the scanner and the place of a token *)

#[global] Instance state_name_eq_dec : EqDecision state_name.
Proof. solve_decision. Defined.

(** The stacks the scanner can hold: the states below the top, and the
    top. *)
Definition shapes : list (list state_name * state_name) :=
  [ ([], S_root);
    ([S_root], S_module);
    ([S_root], S_block_comment);
    ([S_module; S_root], S_parameters);
    ([S_module; S_root], S_module_port);
    ([S_module; S_root], S_block_comment) ].

(** Inside a module: the state [module] is on the stack. *)
Definition in_module (sh : list state_name * state_name) : bool :=
  bool_decide (S_module ∈ sh.2 :: sh.1).

(** The stack after a rule has matched. *)
Definition move (sh : list state_name * state_name) (r : rule)
  : option (list state_name * state_name) :=
  match new_state r with
  | None => Some sh
  | Some (Push s) => Some (sh.2 :: sh.1, s)
  | Some Pop =>
      match sh.1 with
      | [] => None
      | top' :: stack' => Some (stack', top')
      end
  end.

(** The actions that can come outside and inside a module, and where
    the next token is. *)
Definition allowed (inmod : bool) (a : action) : bool :=
  if inmod then
    match a with
    | A_module | A_metacomment => false
    | _ => true
    end
  else
    match a with
    | A_define | A_endif | A_module | A_block_comment | A_end_comment
    | A_metacomment => true
    | _ => false
    end.

Definition next_inmod (inmod : bool) (a : action) : bool :=
  match a with
  | A_module => true
  | A_end_module => false
  | _ => inmod
  end.

Fixpoint accepts (inmod : bool) (ts : list token) : Prop :=
  match ts with
  | [] => True
  | t :: ts' =>
      allowed inmod (tok_action t) = true ∧
      accepts (next_inmod inmod (tok_action t)) ts'
  end.

(** A rule of the state on top of [sh] keeps the stack among [shapes]
    and yields an action that fits the place. *)
Definition rule_moves_ok (sh : list state_name * state_name) (r : rule)
  : bool :=
  match move sh r with
  | None => false
  | Some sh' =>
      bool_decide (sh' ∈ shapes) &&
      match rule_action r with
      | None => Bool.eqb (in_module sh') (in_module sh)
      | Some a =>
          allowed (in_module sh) a &&
          Bool.eqb (in_module sh') (next_inmod (in_module sh) a)
      end
  end.

(** The exceptions [parse_verilog] raises. *)
Definition raised_by_parser (e : exn) : Prop :=
  e = TypeError ∨ e = IndexError ∨
  e = Exception no_matching_msg ∨
  (∃ top, e = Exception (unterminated_msg top)) ∨
  (∃ new_mode second_group,
     e = Exception ("Unknown port format: " +:+ new_mode +:+ " "
                      +:+ second_group)).

(** A module whose ports are completed by a second header, followed by
    a metacomment line *)
Definition note_after_module : string :=
  "module m ( input [1:0] x, a, input [1:0] y ); endmodule" +:+ nl
  +:+ "//# tail" +:+ nl.

(** The identifiers listed by [port_param] tokens since the last
    [module] token, in order; [acc] holds those listed before. *)
Fixpoint listed_from (acc : list string) (ts : list token) : list string :=
  match ts with
  | [] => acc
  | t :: ts' =>
      match tok_action t with
      | A_module => listed_from [] ts'
      | A_port_param =>
          listed_from
            (match tok_groups t with Some s :: _ => acc ++ [s] | _ => acc end)
            ts'
      | _ => listed_from acc ts'
      end
  end.

(** The names given by [param_item] tokens, module by module in the
    order the modules close; [acc] holds the names since the last
    [module] token. *)
Fixpoint closing_generics (acc : list string) (ts : list token)
  : list (list string) :=
  match ts with
  | [] => []
  | t :: ts' =>
      match tok_action t with
      | A_module => closing_generics [] ts'
      | A_param_item =>
          closing_generics
            (match tok_groups t with Some s :: _ => acc ++ [s] | _ => acc end)
            ts'
      | A_end_module => acc :: closing_generics acc ts'
      | _ => closing_generics acc ts'
      end
  end.

(** The names the parser holds for the ports of the module at hand:
    the keys of [ports] and the pending items. *)
Definition port_names (l : locals) : list string :=
  (od_keys (ports l)).*1 ++ (param_items l).*1.

(** The names held, the count of listed identifiers and the section
    marks, against the identifiers listed so far. *)
Definition listing_inv (l : locals) (acc : list string) : Prop :=
  (∀ x, x ∈ port_names l ↔ x ∈ acc) ∧
  port_param_index l = length acc ∧
  Forall (fun s => s.1 ≤ length acc)%nat (sections l).

(** A module with two section marks and an identifier listed twice *)
Definition with_sections : string :=
  "module m ( //# {{clocks}}" +:+ nl +:+ " input [1:0] x, a, //# {{data}}"
  +:+ nl +:+ " b, b ); endmodule".

(** Two modules with parameters *)
Definition two_parameter_modules : string :=
  "module p ; parameter A = 1; parameter integer B = 2; endmodule" +:+ nl
  +:+ "module q ; parameter [3:0] C = 3; endmodule".

(** The names of the generics declared so far in the module at hand,
    after one more token. *)
Definition generic_step (acc : list string) (t : token) : list string :=
  match tok_action t with
  | A_module => []
  | A_param_item =>
      match tok_groups t with Some s :: _ => acc ++ [s] | _ => acc end
  | _ => acc
  end.

(** The list [generics] refers to holds the names [acc], and the list
    each record of [objects] refers to holds the names recorded for it in
    [closed]; inside a module no record shares the list of the parser. *)
Definition generics_inv (l : locals) (inmod : bool) (acc : list string)
    (closed : list (list string)) : Prop :=
  (generics l < length (store l))%nat ∧
  p_name <$> default [] (store l !! generics l) = acc ∧
  Forall2 (fun m ns =>
             (m_generics m < length (store l))%nat ∧
             p_name <$> default [] (store l !! m_generics m) = ns ∧
             (inmod = true → m_generics m ≠ generics l))
          (objects l) closed.

(** The metacomment texts gathered for each module, in the order the
    modules close; [acc] holds those since the last close. *)
Fixpoint closing_descriptions (acc : list string) (ts : list token)
  : list (list string) :=
  match ts with
  | [] => []
  | t :: ts' =>
      match tok_action t with
      | A_metacomment =>
          closing_descriptions
            (match tok_groups t with Some s :: _ => acc ++ [s] | _ => acc end)
            ts'
      | A_end_module => acc :: closing_descriptions [] ts'
      | _ => closing_descriptions acc ts'
      end
  end.

(** Two modules, each after metacomment lines *)
Definition described_modules : string :=
  "//# first" +:+ nl +:+ "//## more" +:+ nl
  +:+ "module p ( input [1:0] x, a, input [1:0] y ); endmodule" +:+ nl
  +:+ "//# second" +:+ nl +:+ "module q ; endmodule" +:+ nl.

(** The metacomment texts gathered so far, after one more token. *)
Definition description_step (acc : list string) (t : token) : list string :=
  match tok_action t with
  | A_metacomment =>
      match tok_groups t with Some s :: _ => acc ++ [s] | _ => acc end
  | A_end_module => []
  | _ => acc
  end.

(** Outside a module no item is held as the last one; [metacomments]
    holds [acc], and the records of [objects] carry the texts recorded in
    [closed]. *)
Definition description_inv (l : locals) (inmod : bool) (acc : list string)
    (closed : list (list string)) : Prop :=
  (inmod = false → last_item l = None) ∧
  metacomments l = acc ∧
  m_desc <$> objects l = closed.

(** A module record with a description and without generics or
    sections *)
Definition plain_described (name : string) (desc : list string)
    (ports : list VerilogParameter) : VerilogModule :=
  mkModule (Some name) module desc None [] ports ∅.

(** ** The scanner reaches the end of every text *)

Open Scope nat_scope.

Section Scanner.
Import Re.

Lemma eat_taken s c c' :
  eat s c = Some c' →
  taken c' = taken c + String.length s ∧
  taken c' + length (rest c') = taken c + length (rest c).
Proof.
  revert c. induction s as [|x s IH]; intros c H; simpl in *.
  - inversion H; subst. lia.
  - unfold step1 in H. destruct c as [pv n l]; simpl in *.
    destruct l as [|y l]; [done|].
    destruct (Ascii.eqb x y); [|done].
    apply IH in H. simpl in *. lia.
Qed.

Lemma rep_taken {R} greedy p lo pv n l (k : cursor → option R) x :
  rep greedy p lo pv n l k = Some x →
  ∃ c', k c' = Some x ∧ n ≤ taken c' ∧ (lo ≠ 0 → n < taken c') ∧
        taken c' + length (rest c') = n + length l.
Proof.
  revert lo pv n. induction l as [|y l IH]; intros lo pv n H; simpl in H.
  - destruct lo; [|done]. eexists; split; [exact H|]. simpl. lia.
  - assert (Hstop :
      match lo with O => k (Cursor pv n (y :: l)) | S _ => None end = Some x →
      ∃ c', k c' = Some x ∧ n ≤ taken c' ∧ (lo ≠ 0 → n < taken c') ∧
            taken c' + length (rest c') = n + length (y :: l)).
    { intros Hs. destruct lo; [|done].
      eexists; split; [exact Hs|]. simpl. lia. }
    assert (Hgo :
      rep greedy p (Nat.pred lo) (Some y) (S n) l k = Some x →
      ∃ c', k c' = Some x ∧ n ≤ taken c' ∧ (lo ≠ 0 → n < taken c') ∧
            taken c' + length (rest c') = n + length (y :: l)).
    { intros Hg. apply IH in Hg as (c' & Hk & Hle & _ & Hlen).
      exists c'. simpl. repeat split; [done|lia|lia|lia]. }
    destruct (p y); [|auto].
    destruct greedy; unfold orelse in H.
    + destruct (rep true p (Nat.pred lo) (Some y) (S n) l k) eqn:E;
        [inversion H; subst; auto|auto].
    + destruct (match lo with O => k _ | S _ => None end) eqn:E;
        [inversion H; subst; auto|auto].
Qed.

Lemma run_taken {R} r : ∀ c g (k : cursor → groups → option R) x,
  run r c g k = Some x →
  ∃ c' g', k c' g' = Some x ∧ taken c ≤ taken c' ∧
           (nonnull r = true → taken c < taken c') ∧
           taken c' + length (rest c') = taken c + length (rest c).
Proof.
  induction r as [s|p|greedy lo p|r IH|r1 IH1 r2 IH2|r1 IH1 r2 IH2|i r IH|];
    intros c g k x H; simpl in H.
  - destruct (eat s c) as [c'|] eqn:E; [|done].
    apply eat_taken in E as [E1 E2]. exists c', g.
    split; [done|]. split; [lia|]. split; [|done].
    destruct s; simpl in *; [done|lia].
  - unfold step1 in H. destruct c as [pv n l]; simpl in *.
    destruct l as [|y l]; [done|]. destruct (p y); [|done].
    eexists _, g; split; [exact H|]. simpl. lia.
  - apply rep_taken in H as (c' & Hk & Hle & Hlt & Hlen).
    exists c', g. split; [done|]. split; [done|]. split; [|done].
    simpl. intros Hlo. apply Hlt. destruct lo; [done|lia].
  - unfold orelse in H. destruct (run r c g k) eqn:E.
    + inversion H; subst. apply IH in E as (c' & g' & ? & ? & _ & ?).
      exists c', g'. simpl. split; [done|]. split; [done|]. split; done.
    + exists c, g. simpl. split; [done|]. split; [lia|]. split; [done|lia].
  - unfold orelse in H. destruct (run r1 c g k) eqn:E.
    + inversion H; subst. apply IH1 in E as (c' & g' & ? & ? & Hn & ?).
      exists c', g'. split; [done|]. split; [done|]. split; [|done].
      simpl. intros [? ?]%andb_prop. auto.
    + apply IH2 in H as (c' & g' & ? & ? & Hn & ?).
      exists c', g'. split; [done|]. split; [done|]. split; [|done].
      simpl. intros [? ?]%andb_prop. auto.
  - apply IH1 in H as (c1 & g1 & H & Hle1 & Hn1 & Hlen1).
    apply IH2 in H as (c2 & g2 & H & Hle2 & Hn2 & Hlen2).
    exists c2, g2. split; [done|]. split; [lia|]. split; [|lia].
    simpl. intros [E|E]%orb_prop; [specialize (Hn1 E)|specialize (Hn2 E)]; lia.
  - apply IH in H as (c' & g' & H & ? & ? & ?).
    eexists c', _. split; [exact H|]. split; [done|]. split; done.
  - destruct (at_boundary c); [|done].
    exists c, g. simpl. split; [done|]. split; [lia|]. split; [done|lia].
Qed.

Lemma match_length r n pv ahead m g :
  match_ r n pv ahead = Some (m, g) →
  nonnull r = true → 0 < m ≤ length ahead.
Proof.
  unfold match_. intros H Hnn.
  apply run_taken in H as (c' & g' & H & _ & Hlt & Hlen).
  specialize (Hlt Hnn). simpl in *. inversion H; subst. lia.
Qed.
End Scanner.

Lemma first_match_rule rules pv ahead r n g :
  MiniLexer.first_match rules pv ahead = Some (r, n, g) →
  r ∈ rules ∧ Re.match_ (pattern r) (n_groups r) pv ahead = Some (n, g).
Proof.
  induction rules as [|r0 rules IH]; simpl; [done|].
  destruct (Re.match_ (pattern r0) (n_groups r0) pv ahead) as [[n0 g0]|] eqn:E.
  - intros [= -> -> ->]. split; [left|done].
  - intros H. apply IH in H as [? ?]. split; [by right|done].
Qed.

Lemma verilog_tokens_ok s r : r ∈ verilog_tokens s → rule_ok s r = true.
Proof.
  intros H.
  assert (Hall : forallb (rule_ok s) (verilog_tokens s) = true)
    by (destruct s; vm_compute; reflexivity).
  rewrite forallb_forall in Hall. apply Hall. by apply list_elem_of_In.
Qed.

Lemma scan_ends fuel : ∀ stack top p pv ahead,
  length ahead < fuel → stack_ok stack top →
  (MiniLexer.scan fuel stack top p pv ahead).2 = MiniLexer.End_of_text.
Proof.
  induction fuel as [|fuel IH]; intros stack top p pv ahead Hfuel Hst; [lia|].
  simpl. destruct ahead as [|x xs]; [done|]. simpl in Hfuel.
  destruct (MiniLexer.first_match (verilog_tokens top) pv (x :: xs))
    as [[[r n] g]|] eqn:E.
  - apply first_match_rule in E as [Hin Hm].
    apply verilog_tokens_ok in Hin. unfold rule_ok in Hin.
    apply andb_prop in Hin as [Hnn Hns].
    apply match_length in Hm as [Hpos Hlen]; [|done]. simpl in Hlen.
    destruct n as [|n]; [lia|].
    assert (Hgo : ∀ stack' top', stack_ok stack' top' →
      (let '(ts, e) :=
         MiniLexer.scan fuel stack' top' (p + S n)
           (MiniLexer.prev_after pv (S n) (x :: xs)) (drop (S n) (x :: xs)) in
       (match rule_action r with Some a => [Token p a g] | None => [] end ++ ts, e)).2
      = MiniLexer.End_of_text).
    { intros stack' top' Hok.
      specialize (IH stack' top' (p + S n)
                     (MiniLexer.prev_after pv (S n) (x :: xs))
                     (drop (S n) (x :: xs))).
      destruct (MiniLexer.scan _ _ _ _ _ _) as [ts e]. simpl in *.
      apply IH; [|done]. rewrite length_drop. lia. }
    destruct (new_state r) as [[s'|]|].
    + apply Hgo. simpl. split; [|done]. by destruct s'.
    + destruct stack as [|top' stack'].
      * simpl in Hst. subst top. simpl in Hns. done.
      * apply Hgo. by destruct Hst.
    + by apply Hgo.
  - apply IH; [lia|done].
Qed.

Lemma run_ends text : (MiniLexer.run text).2 = MiniLexer.End_of_text.
Proof. unfold MiniLexer.run. apply scan_ends; [lia|done]. Qed.

Lemma parse_verilog_tokens text :
  parse_verilog text = parse_tokens (MiniLexer.run text).1.
Proof.
  unfold parse_verilog, parse_tokens. pose proof (run_ends text) as He.
  destruct (MiniLexer.run text) as [ts e]. simpl in *. subst e.
  by destruct (loop initial ts).
Qed.

(** ** Sorting by name *)

Lemma string_leb_trans a : ∀ b c,
  String.leb a b = true → String.leb b c = true → String.leb a c = true.
Proof.
  unfold String.leb.
  induction a as [|x a IH]; intros [|y b] [|z c]; simpl; try done.
  unfold Ascii.compare.
  destruct (N.compare_spec (N_of_ascii x) (N_of_ascii y)) as [Exy|Lxy|Gxy];
    destruct (N.compare_spec (N_of_ascii y) (N_of_ascii z)) as [Eyz|Lyz|Gyz];
    destruct (N.compare_spec (N_of_ascii x) (N_of_ascii z)) as [Exz|Lxz|Gxz];
    try done; try lia.
  apply IH.
Qed.

#[global] Instance name_le_trans : Transitive name_le.
Proof. intros x y z. unfold name_le. apply string_leb_trans. Qed.

Lemma name_le_total x y : name_le x y ∨ name_le y x.
Proof. apply String.leb_total. Qed.

Lemma insert_by_name_perm x l : insert_by_name x l ≡ₚ x :: l.
Proof.
  induction l as [|y l IH]; simpl; [done|].
  destruct (String.leb (p_name x) (p_name y)); [done|].
  rewrite IH. apply Permutation_swap.
Qed.

Lemma sort_by_name_perm l : sort_by_name l ≡ₚ l.
Proof.
  induction l as [|x l IH]; simpl; [done|].
  rewrite insert_by_name_perm. by rewrite IH.
Qed.

Lemma insert_by_name_sorted x l :
  StronglySorted name_le l → StronglySorted name_le (insert_by_name x l).
Proof.
  induction 1 as [|y l Hl IH Hy]; simpl.
  - repeat constructor.
  - destruct (String.leb (p_name x) (p_name y)) eqn:E.
    + constructor; [by constructor|].
      constructor; [exact E|].
      eapply Forall_impl; [exact Hy|]. intros z Hz. by etrans.
    + constructor; [done|].
      rewrite insert_by_name_perm. constructor; [|done].
      destruct (name_le_total x y) as [Hxy|Hyx]; [|done].
      unfold name_le in Hxy. congruence.
Qed.

Lemma sort_by_name_sorted l : StronglySorted name_le (sort_by_name l).
Proof.
  induction l as [|x l IH]; simpl; [constructor|].
  by apply insert_by_name_sorted.
Qed.

(** ** The ordered dictionary of ports *)

Lemma od_get_set_eq {K V} `{EqDecision K} (k : K) (v : V) d :
  od_get k (od_set k v d) = Some v.
Proof.
  induction d as [|[k' v'] d IH]; simpl.
  - by rewrite decide_True.
  - destruct (decide (k' = k)); simpl.
    + by rewrite decide_True.
    + by rewrite decide_False.
Qed.

Lemma od_get_set_ne {K V} `{EqDecision K} (k k' : K) (v : V) d :
  k ≠ k' → od_get k' (od_set k v d) = od_get k' d.
Proof.
  intros Hne. induction d as [|[k0 v0] d IH]; simpl.
  - by rewrite decide_False.
  - destruct (decide (k0 = k)) as [->|]; simpl.
    + by rewrite !decide_False.
    + by rewrite IH.
Qed.

Lemma od_set_elem {K V} `{EqDecision K} (k : K) (v : V) d e :
  e ∈ od_set k v d → e = (k, v) ∨ e ∈ d.
Proof.
  induction d as [|[k' v'] d IH]; simpl.
  - intros ->%list_elem_of_singleton. by left.
  - destruct (decide (k' = k)).
    + intros [->|?]%elem_of_cons; [by left|right; by right].
    + intros [->|?]%elem_of_cons; [right; by left|].
      destruct IH as [?|?]; [done|by left|right; by right].
Qed.

Lemma od_set_keys {K V} `{EqDecision K} (k : K) (v : V) d :
  NoDup (od_keys d) → NoDup (od_keys (od_set k v d)).
Proof.
  unfold od_keys. induction d as [|[k' v'] d IH]; simpl.
  - intros _. apply NoDup_singleton.
  - intros [Hk Hd]%NoDup_cons. destruct (decide (k' = k)) as [->|Hne]; simpl.
    + by apply NoDup_cons.
    + apply NoDup_cons. split; [|by apply IH].
      intros ((k1 & v1) & Heq & Hin)%list_elem_of_fmap. simpl in Heq. subst k1.
      apply od_set_elem in Hin as [[= ? ?]|Hin]; [done|].
      apply Hk. apply list_elem_of_fmap. by exists (k', v1).
Qed.

Lemma od_set_ok k v d : key_of v = k → ports_ok d → ports_ok (od_set k v d).
Proof.
  intros Hk [Hnd Hall]. split; [by apply od_set_keys|].
  apply Forall_forall. intros e [->|He]%od_set_elem; [done|].
  rewrite Forall_forall in Hall. by apply Hall.
Qed.

Lemma complete_pending_snoc mode ptype items i d :
  complete_pending mode ptype (items ++ [i]) d =
  od_set i (new_parameter i.1 (Some mode) ptype None i.2)
         (complete_pending mode ptype items d).
Proof. unfold complete_pending. by rewrite foldl_snoc. Qed.

Lemma complete_pending_ok mode ptype items d :
  ports_ok d → ports_ok (complete_pending mode ptype items d).
Proof.
  intros Hd. induction items as [|i items IH] using rev_ind; [done|].
  rewrite complete_pending_snoc. apply od_set_ok; [|done]. by destruct i.
Qed.

Lemma complete_pending_get mode ptype items d k :
  k ∈ items →
  od_get k (complete_pending mode ptype items d) =
  Some (new_parameter k.1 (Some mode) ptype None k.2).
Proof.
  induction items as [|i items IH] using rev_ind; [by intros ?%elem_of_nil|].
  rewrite complete_pending_snoc. destruct (decide (i = k)) as [->|Hne].
  - intros _. apply od_get_set_eq.
  - intros [Hin|Hin%list_elem_of_singleton]%elem_of_app; [|done].
    rewrite od_get_set_ne; auto.
Qed.

Lemma od_values_absent d k :
  Forall (fun e => key_of e.2 = e.1) d → k ∉ od_keys d →
  filter (has_key k) (od_values d) = [].
Proof.
  unfold od_keys, od_values. induction d as [|[k' v'] d IH]; simpl; [done|].
  intros [Hk Hd]%Forall_cons Hnin. simpl in Hk.
  apply not_elem_of_cons in Hnin as [Hne Hnin].
  rewrite filter_cons_False; [by apply IH|]. unfold has_key. congruence.
Qed.

Lemma od_values_unique d k v :
  ports_ok d → od_get k d = Some v → filter (has_key k) (od_values d) = [v].
Proof.
  unfold ports_ok, od_keys, od_values.
  induction d as [|[k' v'] d IH]; simpl; [by intros _ ?|].
  intros [[Hnin Hnd]%NoDup_cons [Hk Hd]%Forall_cons] Hget. simpl in Hk.
  destruct (decide (k' = k)) as [->|Hne].
  - inversion Hget; subst v'. rewrite filter_cons_True; [|done].
    f_equal. by apply od_values_absent.
  - rewrite filter_cons_False; [by apply IH|]. unfold has_key. congruence.
Qed.

Lemma od_values_keys d : ports_ok d → NoDup (key_of <$> od_values d).
Proof.
  intros [Hnd Hall]. unfold od_keys, od_values in *.
  replace (key_of <$> d.*2) with d.*1; [done|].
  clear Hnd. induction Hall as [|[k v] d Hk _ IH]; [done|].
  rewrite !fmap_cons. simpl in *. by f_equal.
Qed.

(** ** One iteration of the parser loop *)

Ltac bind_inv H :=
  repeat
    (simpl in H;
     match type of H with
     | Raise _ = Ok _ => discriminate H
     | mbind _ ?m = Ok _ =>
         let E := fresh "E" in
         destruct m eqn:E; [|discriminate H]
     | (let '(_, _) := ?p in _) = Ok _ => destruct p
     | (if ?b then _ else _) = Ok _ => destruct b
     | match last_item ?l with _ => _ end = Ok _ => destruct (last_item l)
     end);
  simpl in H.

Lemma last_nil_length {A} (s : list A) : last s = None ↔ length s = 0.
Proof. rewrite last_None. by destruct s. Qed.

Lemma step_other l t l' :
  step l t = Ok l' → tok_action t ≠ A_end_module → objects l' = objects l.
Proof.
  intros H Ha. unfold step in H.
  destruct (tok_action t); try done; bind_inv H; by inversion H.
Qed.

Lemma step_end_module l t l' :
  tok_action t = A_end_module → step l t = Ok l' →
  current_define l = [] ∧
  ports l' = complete_pending (mode l) (ptype l) (param_items l) (ports l) ∧
  objects l' =
    objects l ++
      [mkModule (name l) module (metacomments l) None (generics l)
         (sort_by_name (od_values (ports l'))) (dict_of (sections l))].
Proof.
  intros Ha H. unfold step in H. rewrite Ha in H.
  destruct (decide (0 < length (current_define l))) as [Hlen|Hlen];
    [bind_inv H|].
  destruct (current_define l) as [|d ds] eqn:Hd; [|simpl in Hlen; lia].
  by inversion H; subst; simpl.
Qed.

Lemma step_end_module_open l t top :
  tok_action t = A_end_module → last (current_define l) = Some top →
  step l t = Raise (Exception (unterminated_msg top)).
Proof.
  intros Ha Htop. unfold step. rewrite Ha.
  rewrite decide_True.
  - unfold Py.index_last. by rewrite Htop.
  - destruct (current_define l); [done|simpl; lia].
Qed.

Lemma step_endif_empty l t :
  tok_action t = A_endif → current_define l = [] →
  step l t = Raise (Exception no_matching_msg).
Proof. intros Ha Hd. unfold step. by rewrite Ha, Hd. Qed.

Lemma step_port_start l t l' :
  tok_action t = A_module_port_start → step l t = Ok l' →
  ports l' = complete_pending (mode l) (ptype l) (param_items l) (ports l) ∧
  param_items l' = [].
Proof.
  intros Ha H. unfold step in H. rewrite Ha in H.
  destruct (unpack2 (tok_groups t)) as [[[m|] [s|]]|]; try done; simpl in H.
  bind_inv H. by inversion H.
Qed.

Lemma step_ports_ok l t l' :
  step l t = Ok l' → ports_ok (ports l) → ports_ok (ports l').
Proof.
  intros H Hok. destruct (tok_action t) eqn:Ha.
  all: try (unfold step in H; rewrite Ha in H; bind_inv H;
            inversion H; subst; simpl; done).
  - unfold step in H; rewrite Ha in H; bind_inv H. inversion H; simpl.
    split; [apply NoDup_nil_2|apply Forall_nil_2].
  - apply step_port_start in H as [-> _]; [|done].
    by apply complete_pending_ok.
  - apply step_end_module in H as (_ & -> & _); [|done].
    by apply complete_pending_ok.
Qed.

Lemma loop_app ts1 : ∀ l ts2,
  loop l (ts1 ++ ts2) = l' ← loop l ts1; loop l' ts2.
Proof.
  induction ts1 as [|t ts1 IH]; intros l ts2; simpl; [done|].
  destruct (step l t); simpl; [apply IH|done].
Qed.

Lemma loop_invariant (P : locals → Prop) :
  (∀ l t l', step l t = Ok l' → P l → P l') →
  ∀ ts l l', loop l ts = Ok l' → P l → P l'.
Proof.
  intros Hstep. induction ts as [|t ts IH]; intros l l' H Hl; simpl in H.
  - by inversion H; subst.
  - destruct (step l t) as [l1|] eqn:E; [|done]. simpl in H.
    eapply IH; [exact H|]. by eapply Hstep.
Qed.

Lemma loop_ports_ok ts l : loop initial ts = Ok l → ports_ok (ports l).
Proof.
  intros H. eapply (loop_invariant (fun l => ports_ok (ports l))); [|exact H|].
  - intros. by eapply step_ports_ok.
  - split; [apply NoDup_nil_2|apply Forall_nil_2].
Qed.

Lemma loop_emitted_ok ts l :
  loop initial ts = Ok l → Forall emitted_ok (objects l).
Proof.
  intros H.
  eapply (loop_invariant (fun l => Forall emitted_ok (objects l))); [|exact H|].
  - clear. intros l t l' H Hl.
    destruct (decide (tok_action t = A_end_module)) as [Ha|Ha].
    + apply step_end_module in H as (_ & _ & ->); [|done].
      apply Forall_app. split; [done|]. apply Forall_singleton.
      split; [apply sort_by_name_sorted|done].
    + by rewrite (step_other _ _ _ H Ha).
  - apply Forall_nil_2.
Qed.

Lemma returned_emitted_ok l P :
  (∀ m, emitted_ok m → P (deref (store l) m)) →
  Forall emitted_ok (objects l) → Forall P (returned l).
Proof.
  intros HP Hall. unfold returned. apply Forall_fmap.
  eapply Forall_impl; [exact Hall|]. intros m Hm. by apply HP.
Qed.

Lemma parse_verilog_loop text ms :
  parse_verilog text = Ok ms →
  ∃ l, loop initial (MiniLexer.run text).1 = Ok l ∧ ms = returned l.
Proof.
  rewrite parse_verilog_tokens. unfold parse_tokens.
  destruct (loop initial _) as [l|]; [|done].
  intros [= <-]. by exists l.
Qed.

(** ** Port headers *)

(** A header without a bracket never yields a type: [vec_range] is still
    the tuple when it is appended to the string. *)
Lemma port_header_no_bracket new_mode second_group :
  Py.contains "[" (Py.strip second_group) = false →
  is_ok (port_header new_mode second_group) = false.
Proof.
  intros H. unfold port_header. rewrite H.
  destruct (Py.index_last (Py.split (Py.strip second_group))); [|done].
  simpl. destruct (decide _); [|done].
  by destruct (Py.index (Py.split (Py.strip second_group)) 0).
Qed.

(** The identifier named in a header is not recorded: after the header
    the pending list is empty and [ports] holds what was pending before. *)
Lemma header_identifier_dropped l t l' :
  tok_action t = A_module_port_start → step l t = Ok l' →
  param_items l' = [] ∧
  od_keys (ports l') =
  od_keys (complete_pending (mode l) (ptype l) (param_items l) (ports l)).
Proof. intros Ha H. by apply step_port_start in H as [-> ->]. Qed.

(** ** Scenarios *)

(** C1. On the text of scenario A [parse_verilog] raises [TypeError] at
    the first header, [input a]: the header has no bracket, so
    [vec_range] is still the tuple [(None,)] when it is concatenated to
    the type string.  No module list is returned. *)
Theorem scenario_A_raises : parse_verilog scenario_A = Raise TypeError.
Proof. vm_compute. reflexivity. Qed.

(** C2. On the text of scenario E [parse_verilog] returns the module [m]
    with no port at all: the identifier [d] of the header is computed and
    dropped. *)
Theorem scenario_E_no_port :
  parse_verilog scenario_E = Ok [plain_module "m" []].
Proof. vm_compute. reflexivity. Qed.

(** C3. A metacomment line that follows the completed port [b] inside
    the module is not attached to it: the port keeps no description,
    and the module's leading description stays empty. *)
Theorem trailing_metacomment_dropped :
  parse_verilog trailing_note =
  Ok [plain_module "m"
        [{| p_name := "b"; p_kind := unknown; p_desc := None;
            p_define := None; p_mode := Some "input";
            p_data_type := " [1:0]"; p_default_value := None |}]].
Proof. vm_compute. reflexivity. Qed.

(** The branch that would attach a metacomment to the last item raises:
    [last_item] is a key of [ports], not a record. *)
Lemma metacomment_after_item_raises l t k :
  tok_action t = A_metacomment → last_item l = Some k →
  is_ok (step l t) = false.
Proof.
  intros Ha Hk. unfold step. rewrite Ha, Hk.
  by destruct (group (tok_groups t) 0).
Qed.

(** No port record is ever given a description: the only assignment to
    a [desc] attribute is the one that raises. *)
Lemma complete_pending_undescribed mode ptype items d :
  Forall (fun e => p_desc e.2 = None) d →
  Forall (fun e => p_desc e.2 = None) (complete_pending mode ptype items d).
Proof.
  intros Hd. induction items as [|i items IH] using rev_ind; [done|].
  rewrite complete_pending_snoc. apply Forall_forall.
  intros e [->|He]%od_set_elem; [done|].
  rewrite Forall_forall in IH. by apply IH.
Qed.

Lemma ports_never_described text ms :
  parse_verilog text = Ok ms →
  Forall (fun m => Forall (fun p => p_desc p = None) (m_ports m)) ms.
Proof.
  intros (l & Hl & ->)%parse_verilog_loop.
  set (P := fun l : locals =>
    Forall (fun e => p_desc e.2 = None) (ports l) ∧
    Forall (fun m => Forall (fun p => p_desc p = None) (m_ports m)) (objects l)).
  assert (HP : P l).
  { eapply (loop_invariant P); [|exact Hl|by split].
    clear. intros l t l' H [Hp Ho]. unfold P.
    destruct (tok_action t) eqn:Ha.
    all: try (unfold step in H; rewrite Ha in H; bind_inv H;
              inversion H; subst; simpl; done).
    - apply step_port_start in H as Hs; [|done]. destruct Hs as [-> _].
      rewrite (step_other _ _ _ H); [|congruence].
      split; [by apply complete_pending_undescribed|done].
    - apply step_end_module in H as (_ & Hports & ->); [|done].
      assert (Hp' : Forall (fun e => p_desc e.2 = None) (ports l'))
        by (rewrite Hports; by apply complete_pending_undescribed).
      split; [done|]. apply Forall_app. split; [done|].
      apply Forall_singleton. simpl. rewrite sort_by_name_perm.
      unfold od_values. by apply Forall_fmap. }
  destruct HP as [_ Ho]. unfold returned. apply Forall_fmap.
  eapply Forall_impl; [exact Ho|]. by intros m Hm.
Qed.

(** ** Ports of an emitted module *)

(** The ports of a module are keyed by the identifier together with its
    innermost guard.  Here the identifier [a] is listed twice in one
    module, once outside and once inside a guard: the emitted module has
    two entries named [a], one for each key. *)
Lemma two_guards_two_entries :
  parse_verilog two_guards =
  Ok [plain_module "m"
        [input_port "a" " [1:0]" None;
         input_port "a" " [1:0]" (Some "`ifdef=FOO")]].
Proof. vm_compute. reflexivity. Qed.

(** With nothing between the later header and [endmodule], the one entry
    of the identifier listed twice carries the later header's mode and
    type. *)
Lemma redeclared_port_header_type :
  parse_verilog redeclared =
  Ok [plain_module "m"
        [new_parameter "a" (Some "output") "reg [3:0]" None None]].
Proof. vm_compute. reflexivity. Qed.

(** A parameter declaration writes its type into [ptype], the variable
    the ports take their type from, and leaves the pending identifiers
    pending. *)
Lemma parameter_start_keeps_pending l t l' :
  tok_action t = A_parameter_start → step l t = Ok l' →
  param_items l' = param_items l ∧ ports l' = ports l ∧
  mode l' = mode l ∧ current_define l' = current_define l ∧
  ∃ net_type vec_range,
    tok_groups t = [net_type; vec_range] ∧
    ptype l' =
    match net_type, vec_range with
    | Some n, Some v => n +:+ " " +:+ v
    | Some n, None => n
    | None, Some v => " " +:+ v
    | None, None => EmptyString
    end.
Proof.
  intros Ha H. unfold step in H. rewrite Ha in H.
  destruct (tok_groups t) as [|net_type [|vec_range [|? ?]]]; try done.
  simpl in H. inversion H; subst; simpl.
  repeat split. exists net_type, vec_range. split; [done|].
  by destruct net_type as [n|], vec_range as [v|].
Qed.

(** C4. The identifier [a] is listed under the header [input [1:0] x]
    and again under the later header [output reg [3:0] y]; the body then
    declares the parameter [P].  The module comes back with one entry for
    [a] whose type is the parameter's [integer], not the later header's
    [reg [3:0]]: the parameter declaration has overwritten [ptype] before
    the close completes the pending identifier. *)
Theorem redeclared_port_takes_parameter_type :
  parse_verilog redeclared_then_parameter =
  Ok [mkModule (Some "m") module [] None
        [new_parameter "P" (Some "in") "integer" (Some "1") None]
        [new_parameter "a" (Some "output") "integer" None None]
        ∅].
Proof. vm_compute. reflexivity. Qed.

(** X26. Whenever [parse_verilog] returns, the ports of every module it
    returns have pairwise distinct pairs of identifier and guard: the
    same pair listed again replaces its record and adds none. *)
Theorem ports_keys_distinct text ms :
  parse_verilog text = Ok ms →
  Forall (fun m : VerilogModule => NoDup (key_of <$> m_ports m)) ms.
Proof.
  intros (l & Hl & ->)%parse_verilog_loop.
  set (P := fun l : locals =>
    ports_ok (ports l) ∧
    Forall (fun m => NoDup (key_of <$> m_ports m)) (objects l)).
  assert (HP : P l).
  { eapply (loop_invariant P); [|exact Hl|].
    - clear. intros l t l' H [Hp Ho]. unfold P.
      split; [by eapply step_ports_ok|].
      destruct (tok_action t) eqn:Ha.
      all: try (unfold step in H; rewrite Ha in H; bind_inv H;
                inversion H; subst; simpl; done).
      apply step_end_module in H as H'; [|done].
      destruct H' as (_ & Hports & ->).
      apply Forall_app. split; [done|].
      apply Forall_singleton. simpl. rewrite sort_by_name_perm.
      apply od_values_keys. by eapply step_ports_ok.
    - split; [|done]. split; [apply NoDup_nil_2|done]. }
  destruct HP as [_ Ho]. unfold returned. apply Forall_fmap.
  eapply Forall_impl; [exact Ho|]. by intros m Hm.
Qed.

Lemma ports_keys_distinct_witness :
  Forall (fun m : VerilogModule => NoDup (key_of <$> m_ports m))
    [plain_module "m"
       [input_port "a" " [1:0]" None;
        input_port "a" " [1:0]" (Some "`ifdef=FOO")]].
Proof.
  apply (ports_keys_distinct two_guards).
  vm_compute. reflexivity.
Defined.

(** X27. When a module closes without an open guard, every pending
    item, an identifier together with its innermost guard, has exactly
    one entry in the emitted module's ports, whatever was recorded for
    the same identifier and guard before, and that entry carries the
    mode and the type in force at the close. *)
Theorem port_redeclared_same_guard ts l t k :
  loop initial ts = Ok l →
  tok_action t = A_end_module →
  current_define l = [] →
  k ∈ param_items l →
  ∃ ms m,
    parse_tokens (ts ++ [t]) = Ok ms ∧ last ms = Some m ∧
    NoDup (key_of <$> m_ports m) ∧
    filter (has_key k) (m_ports m) =
    [new_parameter k.1 (Some (mode l)) (ptype l) None k.2].
Proof.
  intros Hl Ha Hd Hk.
  assert (Hstep : ∃ l', step l t = Ok l').
  { unfold step. rewrite Ha, Hd. simpl. eauto. }
  destruct Hstep as [l' Hstep].
  pose proof (step_end_module _ _ _ Ha Hstep) as (_ & Hports & Hobjs).
  exists (returned l'), (deref (store l') (mkModule (name l) module
    (metacomments l) None (generics l)
    (sort_by_name (od_values (ports l'))) (dict_of (sections l)))).
  assert (Hok : ports_ok (ports l')).
  { rewrite Hports. apply complete_pending_ok. by eapply loop_ports_ok. }
  split; [|split; [|split]].
  - unfold parse_tokens. rewrite loop_app, Hl. simpl. by rewrite Hstep.
  - unfold returned. rewrite Hobjs, fmap_app. simpl. apply last_snoc.
  - simpl. rewrite sort_by_name_perm. by apply od_values_keys.
  - simpl. apply Permutation_singleton_r.
    rewrite sort_by_name_perm.
    rewrite (od_values_unique _ k
               (new_parameter k.1 (Some (mode l)) (ptype l) None k.2)); [done|done|].
    rewrite Hports. by apply complete_pending_get.
Qed.

Lemma port_redeclared_same_guard_witness :
  ∃ ms m,
    parse_tokens (tokens_of same_guard) = Ok ms ∧
    last ms = Some m ∧
    NoDup (key_of <$> m_ports m) ∧
    filter (has_key ("a", None)) (m_ports m) =
    [new_parameter "a" (Some "input") "reg [3:0]" None None].
Proof.
  assert (E : tokens_of same_guard =
              removelast (tokens_of same_guard) ++ [Token 53 A_end_module []])
    by (vm_compute; reflexivity).
  rewrite E.
  apply (port_redeclared_same_guard
           (removelast (tokens_of same_guard))
           (locals_after (removelast (tokens_of same_guard)))
           (Token 53 A_end_module []) ("a", None)).
  - vm_compute. reflexivity.
  - reflexivity.
  - vm_compute. reflexivity.
  - vm_compute. left.
Defined.

(** C5. Whenever [parse_verilog] returns, the ports of every module it
    returns are in ascending order of their names. *)
Theorem ports_sorted_by_name text ms :
  parse_verilog text = Ok ms →
  Forall (fun m => StronglySorted name_le (m_ports m)) ms.
Proof.
  intros (l & Hl & ->)%parse_verilog_loop.
  apply returned_emitted_ok; [|by eapply loop_emitted_ok].
  by intros m [Hs _].
Qed.

Lemma ports_sorted_by_name_witness :
  Forall (fun m => StronglySorted name_le (m_ports m))
    [plain_module "m"
       [input_port "a" " [1:0]" None; input_port "b" " [1:0]" None;
        input_port "c" " [1:0]" None]].
Proof.
  apply (ports_sorted_by_name descending).
  vm_compute. reflexivity.
Defined.

(** ** Guards *)

(** C6, counterexample. The document ends while the guard [FOO], opened
    after the only module, is still open, and [parse_verilog] returns the
    module list. *)
Lemma open_guard_at_end_returns :
  current_define (locals_after (tokens_of open_at_end)) = ["`ifdef=FOO"] ∧
  parse_verilog open_at_end =
  Ok [plain_module "m"
        [input_port "a" " [1:0]" None; input_port "b" " [1:0]" None;
         input_port "c" " [1:0]" None]].
Proof. split; vm_compute; reflexivity. Qed.

(** C6, as amended. With a guard open after some tokens of the text:
    if the next token closes a module, [parse_verilog] raises; if the
    text ends there, [parse_verilog] returns the modules emitted so far,
    the end of the document not being checked. *)
Theorem open_guard_checked_at_end_module text pre l :
  loop initial pre = Ok l →
  current_define l ≠ [] →
  (∀ t post, tokens_of text = pre ++ t :: post →
             tok_action t = A_end_module →
             is_ok (parse_verilog text) = false) ∧
  (tokens_of text = pre → parse_verilog text = Ok (returned l)).
Proof.
  intros Hl Hd. split.
  - intros t post Hts Ha. rewrite parse_verilog_tokens.
    unfold tokens_of in Hts. unfold parse_tokens.
    rewrite Hts, loop_app, Hl. simpl.
    destruct (last (current_define l)) as [top|] eqn:Htop.
    + by rewrite (step_end_module_open _ _ top).
    + apply last_None in Htop. done.
  - intros Hts. rewrite parse_verilog_tokens. unfold tokens_of in Hts.
    unfold parse_tokens. by rewrite Hts, Hl.
Qed.

Lemma open_guard_checked_at_end_module_witness :
  is_ok (parse_verilog scenario_C) = false ∧
  parse_verilog open_at_end =
  Ok (returned (locals_after (tokens_of open_at_end))).
Proof.
  split.
  - refine (proj1 (open_guard_checked_at_end_module scenario_C
                     (take 4 (tokens_of scenario_C))
                     (locals_after (take 4 (tokens_of scenario_C))) _ _)
                  (Token 42 A_end_module []) [] _ _).
    + vm_compute. reflexivity.
    + vm_compute. discriminate.
    + vm_compute. reflexivity.
    + reflexivity.
  - refine (proj2 (open_guard_checked_at_end_module open_at_end
                     (tokens_of open_at_end)
                     (locals_after (tokens_of open_at_end)) _ _) _).
    + vm_compute. reflexivity.
    + vm_compute. discriminate.
    + reflexivity.
Defined.

(** C7. When the token at hand is [`endif] and the define stack is
    empty, [parse_verilog] raises the no-matching-guard exception; when
    it is [endmodule] and the stack is not empty, [parse_verilog] raises
    the unterminated-guard exception naming the innermost guard.  In both
    cases the parse ends there and returns nothing. *)
Theorem guard_failures text pre t post l :
  tokens_of text = pre ++ t :: post →
  loop initial pre = Ok l →
  (tok_action t = A_endif → current_define l = [] →
   parse_verilog text = Raise (Exception no_matching_msg)) ∧
  (tok_action t = A_end_module →
   ∀ top, last (current_define l) = Some top →
          parse_verilog text = Raise (Exception (unterminated_msg top))).
Proof.
  intros Hts Hl. unfold tokens_of in Hts.
  rewrite parse_verilog_tokens. unfold parse_tokens.
  rewrite Hts, loop_app, Hl. simpl. split.
  - intros Ha Hd. by rewrite step_endif_empty.
  - intros Ha top Htop. by rewrite (step_end_module_open _ _ top).
Qed.

Lemma guard_failures_witness :
  parse_verilog scenario_D = Raise (Exception no_matching_msg) ∧
  parse_verilog scenario_C = Raise (Exception (unterminated_msg "`ifdef=FOO")).
Proof.
  split.
  - refine (proj1 (guard_failures scenario_D [] (Token 0 A_endif []) []
                     initial _ _) _ _).
    + vm_compute. reflexivity.
    + reflexivity.
    + reflexivity.
    + reflexivity.
  - refine (proj2 (guard_failures scenario_C (take 4 (tokens_of scenario_C))
                     (Token 42 A_end_module []) []
                     (locals_after (take 4 (tokens_of scenario_C))) _ _)
                  _ "`ifdef=FOO" _).
    + vm_compute. reflexivity.
    + vm_compute. reflexivity.
    + reflexivity.
    + vm_compute. reflexivity.
Defined.

(** C9. Whenever [parse_verilog] returns, every module it returns has
    [define] equal to [None]: a module is emitted only past the check
    that the define stack is empty. *)
Theorem emitted_define_none text ms :
  parse_verilog text = Ok ms →
  Forall (fun m => m_define m = None) ms.
Proof.
  intros (l & Hl & ->)%parse_verilog_loop.
  apply returned_emitted_ok; [|by eapply loop_emitted_ok].
  by intros m [_ Hd].
Qed.

Lemma emitted_define_none_witness :
  Forall (fun m : VerilogModule => m_define m = None)
    [plain_module "m"
       [input_port "a" " [1:0]" (Some "`ifdef=FOO");
        input_port "b" " [1:0]" None]].
Proof.
  apply (emitted_define_none guarded_port).
  vm_compute. reflexivity.
Defined.

(** ** The caching extractor *)

Lemma extract_objects_hit fs self fname type_filter objs :
  object_cache self !! fname = Some objs →
  extract_objects fs self fname type_filter =
  (Ok (apply_filter type_filter objs), self, []).
Proof. intros H. unfold extract_objects. by rewrite H. Qed.

Lemma extract_objects_miss fs self fname type_filter text objs :
  object_cache self !! fname = None →
  fs fname = Ok text → parse_verilog text = Ok objs →
  extract_objects fs self fname type_filter =
  (Ok (apply_filter type_filter objs),
   mkExtractor (<[fname := objs]> (object_cache self)),
   [Read_file fname; Parse_text text]).
Proof. intros H1 H2 H3. unfold extract_objects. by rewrite H1, H2, H3. Qed.

(** An entry of the cache is never replaced or removed by a call. *)
Lemma extract_objects_keeps fs self fname type_filter f objs :
  object_cache self !! f = Some objs →
  object_cache (extract_objects fs self fname type_filter).1.2 !! f = Some objs.
Proof.
  intros H. unfold extract_objects.
  destruct (object_cache self !! fname) eqn:E; [done|].
  destruct (fs fname); [|done].
  destruct (parse_verilog _); [|done]. simpl.
  rewrite lookup_insert_ne; [done|]. congruence.
Qed.

Lemma after_calls_keeps cs : ∀ self f objs,
  object_cache self !! f = Some objs →
  object_cache (after_calls self cs) !! f = Some objs.
Proof.
  induction cs as [|c cs IH]; intros self f objs H; [done|].
  simpl. apply IH. by apply extract_objects_keeps.
Qed.

(** A call that fails to read or to parse stores nothing. *)
Lemma extract_objects_failure fs self fname type_filter e :
  (extract_objects fs self fname type_filter).1.1 = Raise e →
  (extract_objects fs self fname type_filter).1.2 = self.
Proof.
  unfold extract_objects.
  destruct (object_cache self !! fname); [done|].
  destruct (fs fname); [|done].
  by destruct (parse_verilog _).
Qed.

(** C8. The first call for a path, the cache holding nothing for it,
    reads the file, parses it and stores the result under the path; any
    call for the same path after that, whatever calls came in between
    and whatever the file system has become, returns from the stored
    result without reading or parsing and leaves the extractor as it
    is. *)
Theorem extract_objects_caches fs self fname type_filter text objs :
  object_cache self !! fname = None →
  fs fname = Ok text →
  parse_verilog text = Ok objs →
  ∃ self',
    extract_objects fs self fname type_filter =
    (Ok (apply_filter type_filter objs), self',
     [Read_file fname; Parse_text text]) ∧
    object_cache self' = <[fname := objs]> (object_cache self) ∧
    ∀ cs fs' type_filter',
      extract_objects fs' (after_calls self' cs) fname type_filter' =
      (Ok (apply_filter type_filter' objs), after_calls self' cs, []).
Proof.
  intros Hmiss Hfs Hparse. eexists. split; [|split].
  - by apply extract_objects_miss.
  - done.
  - intros cs fs' type_filter'. apply extract_objects_hit.
    apply after_calls_keeps. simpl. apply lookup_insert_eq.
Qed.

Lemma extract_objects_caches_witness :
  ∃ self',
    extract_objects (one_file descending) new_extractor "a.v" None =
    (Ok (apply_filter None [plain_module "m"
           [input_port "a" " [1:0]" None; input_port "b" " [1:0]" None;
            input_port "c" " [1:0]" None]]), self',
     [Read_file "a.v"; Parse_text descending]) ∧
    object_cache self' =
    <["a.v" := [plain_module "m"
           [input_port "a" " [1:0]" None; input_port "b" " [1:0]" None;
            input_port "c" " [1:0]" None]]]> (object_cache new_extractor) ∧
    ∀ cs fs' type_filter',
      extract_objects fs' (after_calls self' cs) "a.v" type_filter' =
      (Ok (apply_filter type_filter' [plain_module "m"
           [input_port "a" " [1:0]" None; input_port "b" " [1:0]" None;
            input_port "c" " [1:0]" None]]), after_calls self' cs, []).
Proof.
  apply (extract_objects_caches (one_file descending) new_extractor "a.v"
           None descending).
  - reflexivity.
  - reflexivity.
  - vm_compute. reflexivity.
Defined.





(** ** Further properties of the parser loop *)

Ltac step_inv H Ha :=
  unfold step in H; rewrite Ha in H; bind_inv H;
  try (inversion H; subst; simpl).

(** What a successful iteration leaves of the name in force. *)
Lemma step_name l t l' :
  step l t = Ok l' →
  name l' = match tok_action t with
            | A_module =>
                match tok_groups t with Some s :: _ => Some s | _ => name l end
            | _ => name l
            end.
Proof.
  intros H. destruct (tok_action t) eqn:Ha; step_inv H Ha; try done.
  unfold group in E. destruct (tok_groups t) as [|[s|] gs]; simpl in E; congruence.
Qed.

Lemma loop_names ts : ∀ l l',
  loop l ts = Ok l' →
  m_name <$> objects l' = (m_name <$> objects l) ++ closing_names (name l) ts.
Proof.
  induction ts as [|t ts IH]; intros l l' H; simpl in H.
  - inversion H; subst. simpl. by rewrite app_nil_r.
  - destruct (step l t) as [l1|] eqn:E; [|done]. simpl in H.
    apply IH in H. rewrite H. pose proof (step_name _ _ _ E) as Hn.
    simpl. destruct (decide (tok_action t = A_end_module)) as [Ha|Ha].
    + rewrite Ha in *. apply step_end_module in E as (_ & _ & ->); [|done].
      rewrite fmap_app, Hn. simpl. by rewrite <- app_assoc.
    + rewrite (step_other _ _ _ E Ha), Hn.
      by destruct (tok_action t).
Qed.

(** X1. The modules returned are the ones whose [endmodule] is reached,
    in that order, each under the name given by the last [module] token
    before it. *)
Theorem modules_follow_end_module ts ms :
  parse_tokens ts = Ok ms →
  m_name <$> ms = closing_names None ts.
Proof.
  unfold parse_tokens. destruct (loop initial ts) as [l|] eqn:E; [|done].
  intros [= <-]. apply loop_names in E. simpl in E.
  unfold returned. rewrite <- list_fmap_compose. exact E.
Qed.

Lemma modules_follow_end_module_witness :
  m_name <$> [plain_module "p" []; plain_module "q" []]
  = closing_names None (tokens_of three_modules).
Proof.
  apply (modules_follow_end_module (tokens_of three_modules)).
  vm_compute. reflexivity.
Defined.

Lemma step_store_shape l t l' :
  step l t = Ok l' →
  Forall (Forall generic_shape) (store l) →
  Forall (Forall generic_shape) (store l').
Proof.
  intros H Hs. destruct (tok_action t) eqn:Ha; step_inv H Ha; try done.
  - apply Forall_app. split; [done|]. by apply Forall_singleton.
  - apply Forall_forall. intros g Hg.
    apply list_elem_of_lookup in Hg as [i Hi].
    rewrite Forall_forall in Hs.
    destruct (decide (i = generics l)) as [->|Hne].
    + rewrite list_lookup_alter_eq in Hi.
      destruct (store l !! generics l) as [g0|] eqn:Hg0; [|done].
      simpl in Hi. inversion Hi; subst g. apply Forall_app. split.
      * apply Hs. by eapply list_elem_of_lookup_2.
      * apply Forall_singleton. repeat split; eauto.
    + rewrite list_lookup_alter_ne in Hi; [|done].
      apply Hs. by eapply list_elem_of_lookup_2.
Qed.

Lemma complete_pending_shape mode ptype items d :
  Forall (fun e => port_shape e.2) d →
  Forall (fun e => port_shape e.2) (complete_pending mode ptype items d).
Proof.
  intros Hd. induction items as [|i items IH] using rev_ind; [done|].
  rewrite complete_pending_snoc. apply Forall_forall.
  intros e [->|He]%od_set_elem.
  - repeat split; eauto.
  - rewrite Forall_forall in IH. by apply IH.
Qed.

(** X2. In every module returned, a port has a mode and neither a
    default value nor a description, and a generic has the mode [in], a
    default value and no description. *)
Theorem ports_and_generics_shape ts ms :
  parse_tokens ts = Ok ms →
  Forall (fun m => Forall port_shape (m_ports m) ∧
                   Forall generic_shape (m_generics m)) ms.
Proof.
  unfold parse_tokens. destruct (loop initial ts) as [l|] eqn:E; [|done].
  intros [= <-].
  set (P := fun l : locals =>
    Forall (Forall generic_shape) (store l) ∧
    Forall (fun e => port_shape e.2) (ports l) ∧
    Forall (fun m => Forall port_shape (m_ports m)) (objects l)).
  assert (HP : P l).
  { eapply (loop_invariant P); [|exact E|].
    - clear. intros l t l' H (Hs & Hp & Ho).
      split; [by eapply step_store_shape|].
      destruct (tok_action t) eqn:Ha.
      all: try (step_inv H Ha; done).
      + apply step_port_start in H as Hq; [|done]. destruct Hq as [-> _].
        rewrite (step_other _ _ _ H); [|congruence].
        split; [by apply complete_pending_shape|done].
      + apply step_end_module in H as (_ & Hports & ->); [|done].
        assert (Hp' : Forall (fun e => port_shape e.2) (ports l'))
          by (rewrite Hports; by apply complete_pending_shape).
        split; [done|]. apply Forall_app. split; [done|].
        apply Forall_singleton. simpl. rewrite sort_by_name_perm.
        unfold od_values. by apply Forall_fmap.
    - split; [|split]; [|done|done].
      apply Forall_singleton. done. }
  destruct HP as (Hs & _ & Ho). unfold returned. apply Forall_fmap.
  eapply Forall_impl; [exact Ho|]. intros m Hm. simpl. split; [done|].
  destruct (store l !! m_generics m) as [g|] eqn:Hg; simpl; [|done].
  rewrite Forall_forall in Hs. apply Hs. by eapply list_elem_of_lookup_2.
Qed.

Lemma ports_and_generics_shape_witness :
  Forall (fun m : VerilogModule =>
            Forall port_shape (m_ports m) ∧
            Forall generic_shape (m_generics m))
    (match parse_tokens (tokens_of with_parameters) with
     | Ok ms => ms
     | Raise _ => []
     end).
Proof.
  apply (ports_and_generics_shape (tokens_of with_parameters)).
  vm_compute. reflexivity.
Defined.

(** ** Guards are a stack *)

Lemma step_guards l t l' :
  step l t = Ok l' →
  match tok_action t with
  | A_define => ∃ g, current_define l' = current_define l ++ [g]
  | A_endif =>
      current_define l ≠ [] ∧ current_define l' = removelast (current_define l)
  | _ => current_define l' = current_define l
  end.
Proof.
  intros H. destruct (tok_action t) eqn:Ha; step_inv H Ha; eauto.
  split; [|done]. by destruct (current_define l).
Qed.

Lemma loop_guards ts : ∀ l l' base extra n,
  loop l ts = Ok l' →
  current_define l = base ++ extra →
  guard_depth (length extra) ts = Some n →
  ∃ extra', current_define l' = base ++ extra' ∧ length extra' = n.
Proof.
  induction ts as [|t ts IH]; intros l l' base extra n H Hl Hd; simpl in *.
  - inversion H; subst. inversion Hd; subst. eauto.
  - destruct (step l t) as [l1|] eqn:E; [|done]. simpl in H.
    pose proof (step_guards _ _ _ E) as Hg.
    destruct (tok_action t); try (rewrite <- Hg in Hl; by eapply IH).
    + destruct Hg as [g Hg].
      eapply (IH _ _ base (extra ++ [g])); [exact H| |].
      * by rewrite Hg, Hl, app_assoc.
      * by rewrite length_app, Nat.add_1_r.
    + destruct Hg as [_ Hg].
      destruct extra as [|x extra _] using rev_ind; [done|].
      rewrite length_app, Nat.add_1_r in Hd.
      eapply (IH _ _ base extra); [exact H| |exact Hd].
      by rewrite Hg, Hl, app_assoc, removelast_last.
Qed.

(** X3. Guards nest: over a stretch of tokens in which every [`endif]
    closes a guard opened in the stretch, the define stack keeps what it
    held before and gains one entry for every guard still open; over a
    balanced stretch it comes back as it was. *)
Theorem guards_nest ts l l' n :
  loop l ts = Ok l' →
  guard_depth 0 ts = Some n →
  (∃ extra, current_define l' = current_define l ++ extra ∧ length extra = n) ∧
  (n = 0 → current_define l' = current_define l).
Proof.
  intros H Hd.
  destruct (loop_guards ts l l' (current_define l) [] n H) as (extra & He & Hn).
  - by rewrite app_nil_r.
  - done.
  - split; [eauto|]. intros ->. destruct extra; [|done].
    by rewrite app_nil_r in He.
Qed.

Lemma guards_nest_witness :
  (∃ extra,
     current_define (locals_after (take 8 (tokens_of with_parameters))) =
     current_define (locals_after (take 5 (tokens_of with_parameters))) ++ extra ∧
     length extra = 0) ∧
  (0 = 0 →
   current_define (locals_after (take 8 (tokens_of with_parameters))) =
   current_define (locals_after (take 5 (tokens_of with_parameters)))).
Proof.
  apply (guards_nest (drop 5 (take 8 (tokens_of with_parameters)))).
  - vm_compute. reflexivity.
  - vm_compute. reflexivity.
Defined.

(** ** Port headers: failures and the type built *)

Lemma contains_app c a b :
  Py.contains c (a +:+ b) = Py.contains c a || Py.contains c b.
Proof.
  induction a as [|x a IH]; simpl; [done|].
  rewrite IH. by rewrite orb_assoc.
Qed.

Lemma split_on_length c s : length (Py.split_on c s) = S (count_char c s).
Proof.
  induction s as [|x s IH]; simpl; [done|].
  destruct (Ascii.eqb x c); simpl; [by rewrite IH|].
  destruct (Py.split_on c s); simpl in *; [done|]. by rewrite <- IH.
Qed.

Lemma contains_count c s : Py.contains c s = negb (Nat.eqb (count_char c s) 0).
Proof.
  induction s as [|x s IH]; simpl; [done|].
  rewrite Ascii.eqb_sym. destruct (Ascii.eqb c x); simpl; [done|exact IH].
Qed.

Lemma index_ok {A} (l : list A) i : i < length l → ∃ x, Py.index l i = Ok x.
Proof.
  intros Hi. unfold Py.index.
  destruct (l !! i) as [x|] eqn:E; [eauto|].
  apply lookup_ge_None in E. lia.
Qed.

(** X4. A header with three or more opening brackets is refused with
    the message naming the mode and the stripped remainder. *)
Theorem port_header_too_many_brackets new_mode second_group :
  3 ≤ count_char "[" (Py.strip second_group) →
  port_header new_mode second_group =
  Raise (Exception ("Unknown port format: " +:+ new_mode +:+ " "
                      +:+ Py.strip second_group)).
Proof.
  intros Hc. unfold port_header.
  set (s := Py.strip second_group) in *.
  rewrite contains_count.
  destruct (Nat.eqb_spec (count_char "[" s) 0) as [E|_]; [lia|]. simpl.
  pose proof (split_on_length "[" s) as Hlen.
  destruct (index_ok (Py.split_on "[" s) 0) as [p0 ->]; [lia|].
  destruct (index_ok (Py.split_on "[" s) 1) as [p1 ->]; [lia|]. simpl.
  destruct (index_ok (Py.split_on "]" (Py.strip p1)) 0) as [w0 ->].
  { rewrite split_on_length. lia. }
  simpl. rewrite !decide_False by lia. done.
Qed.

Lemma port_header_too_many_brackets_witness :
  port_header "input" " [7:0][3:0][1:0] d " =
  Raise (Exception ("Unknown port format: " +:+ "input" +:+ " "
                      +:+ Py.strip " [7:0][3:0][1:0] d ")).
Proof.
  apply (port_header_too_many_brackets "input" " [7:0][3:0][1:0] d ").
  vm_compute. lia.
Defined.

Lemma split_blank s : blank s = true → Py.split s = [].
Proof.
  induction s as [|x s IH]; simpl; [done|].
  intros [Hx Hs]%andb_prop. rewrite Hx. auto.
Qed.

Lemma split_not_blank s : blank s = false → Py.split s ≠ [].
Proof.
  induction s as [|x s IH]; simpl; [done|].
  destruct (Py.isspace x) eqn:Hx; simpl; [done|]. intros _.
  destruct s as [|y s]; [done|].
  destruct (Py.isspace y); [done|]. by destruct (Py.split (String y s)).
Qed.

Lemma lstrip_blank s : blank (Py.lstrip s) = blank s.
Proof.
  induction s as [|x s IH]; simpl; [done|].
  destruct (Py.isspace x) eqn:Hx; simpl; [done|]. by rewrite Hx.
Qed.

Lemma rstrip_blank s : blank (Py.rstrip s) = blank s.
Proof.
  induction s as [|x s IH]; simpl; [done|].
  destruct (Py.rstrip s) as [|y r] eqn:Hr; simpl in *.
  - destruct (Py.isspace x) eqn:Hx; simpl; [done|by rewrite Hx].
  - by rewrite <- IH.
Qed.

Lemma strip_blank s : blank (Py.strip s) = blank s.
Proof. unfold Py.strip. by rewrite lstrip_blank, rstrip_blank. Qed.

(** X5. A header without an opening bracket never sets a type: it
    raises [IndexError] when nothing but blanks follows the mode and
    [TypeError] otherwise. *)
Theorem port_header_without_bracket new_mode second_group :
  Py.contains "[" (Py.strip second_group) = false →
  port_header new_mode second_group =
  Raise (if blank second_group then IndexError else TypeError).
Proof.
  intros H. unfold port_header. rewrite H.
  destruct (blank second_group) eqn:Hb.
  - rewrite split_blank by (by rewrite strip_blank). done.
  - pose proof (split_not_blank (Py.strip second_group)) as Hne.
    rewrite strip_blank in Hne. specialize (Hne Hb).
    unfold Py.index_last.
    destruct (last (Py.split (Py.strip second_group))) eqn:El;
      [|by apply last_None in El].
    simpl. destruct (decide _) as [Hl|]; [|done].
    destruct (index_ok (Py.split (Py.strip second_group)) 0) as [x ->]; [lia|].
    done.
Qed.

Lemma port_header_without_bracket_witness :
  port_header "input" " wire a" = Raise TypeError ∧
  port_header "output" "  " = Raise IndexError.
Proof.
  split.
  - apply (port_header_without_bracket "input" " wire a"). reflexivity.
  - apply (port_header_without_bracket "output" "  "). reflexivity.
Defined.

(** X6. Whenever a header yields a type, the type holds a bracket:
    [is_array] answers [True] on it. *)
Theorem port_header_type_is_array new_mode second_group new_ptype :
  port_header new_mode second_group = Ok new_ptype →
  is_array new_ptype = true.
Proof.
  unfold port_header, is_array. intros H.
  destruct (Py.contains "[" (Py.strip second_group)); bind_inv H;
    match goal with
    | E : match ?v with VR_tuple => _ | VR_str _ => _ end = Ok _ |- _ =>
        destruct v as [|w]; [discriminate E|]; inversion E; subst; clear E
    end;
    inversion H; subst; clear H;
    match goal with
    | E : _ = Ok (_, VR_str ?w, ?o) |- _ =>
        assert (Hw : Py.contains "[" w = true)
          by (bind_inv E; inversion E; subst; done);
        destruct o; rewrite !contains_app, Hw; simpl; by rewrite ?orb_true_r
    end.
Qed.

Lemma port_header_type_is_array_witness : is_array " [7:0][3:0]" = true.
Proof.
  apply (port_header_type_is_array "input" " [7:0][3:0] d ").
  vm_compute. reflexivity.
Defined.

(** *** Stripping and splitting around a bracket *)

Lemma lstrip_app_nonblank a c b :
  Py.isspace c = false →
  Py.lstrip (a +:+ String c b) = Py.lstrip a +:+ String c b.
Proof.
  intros Hc. induction a as [|x a IH]; simpl; [by rewrite Hc|].
  by destruct (Py.isspace x).
Qed.

Lemma rstrip_app_nonblank a c b :
  Py.isspace c = false →
  Py.rstrip (a +:+ String c b) = a +:+ String c (Py.rstrip b).
Proof.
  intros Hc. induction a as [|x a IH]; simpl.
  - rewrite Hc. by destruct (Py.rstrip b).
  - rewrite IH. by destruct a.
Qed.

Lemma strip_around a c b :
  Py.isspace c = false →
  Py.strip (a +:+ String c b) = Py.lstrip a +:+ String c (Py.rstrip b).
Proof.
  intros Hc. unfold Py.strip.
  by rewrite rstrip_app_nonblank, lstrip_app_nonblank.
Qed.

Lemma lstrip_idemp s : Py.lstrip (Py.lstrip s) = Py.lstrip s.
Proof.
  induction s as [|x s IH]; simpl; [done|].
  destruct (Py.isspace x) eqn:Hx; [done|]. simpl. by rewrite Hx.
Qed.

Lemma rstrip_lstrip s : Py.rstrip (Py.lstrip s) = Py.lstrip (Py.rstrip s).
Proof.
  induction s as [|x s IH]; simpl; [done|].
  destruct (Py.isspace x) eqn:Hx.
  - rewrite IH. destruct (Py.rstrip s); simpl; [done|by rewrite Hx].
  - simpl. destruct (Py.rstrip s); simpl; by rewrite Hx.
Qed.

Lemma strip_lstrip s : Py.strip (Py.lstrip s) = Py.strip s.
Proof. unfold Py.strip. by rewrite rstrip_lstrip, lstrip_idemp. Qed.

Lemma contains_lstrip c s :
  Py.contains c s = false → Py.contains c (Py.lstrip s) = false.
Proof.
  induction s as [|x s IH]; simpl; [done|].
  intros [? ?]%orb_false_elim. destruct (Py.isspace x); simpl; [auto|].
  by apply orb_false_intro.
Qed.

Lemma contains_rstrip c s :
  Py.contains c s = false → Py.contains c (Py.rstrip s) = false.
Proof.
  induction s as [|x s IH]; simpl; [done|].
  intros [Hx Hs]%orb_false_elim. specialize (IH Hs).
  destruct (Py.rstrip s); simpl in *.
  - destruct (Py.isspace x); simpl; [done|by rewrite Hx].
  - by rewrite Hx, IH.
Qed.

Lemma split_on_app c a b :
  Py.contains c a = false →
  Py.split_on c (a +:+ String c b) = a :: Py.split_on c b.
Proof.
  induction a as [|x a IH]; simpl.
  - intros _. by rewrite Ascii.eqb_refl.
  - intros [Hx Ha]%orb_false_elim. rewrite Hx, (IH Ha). done.
Qed.

Lemma split_on_none c b : Py.contains c b = false → Py.split_on c b = [b].
Proof.
  induction b as [|x b IH]; simpl; [done|].
  intros [Hx Hb]%orb_false_elim. by rewrite Hx, (IH Hb).
Qed.

Lemma contains_mid c a x b :
  Py.contains c (a +:+ String x b) =
  Py.contains c a || Ascii.eqb x c || Py.contains c b.
Proof. rewrite contains_app. simpl. by rewrite orb_assoc. Qed.

Lemma append_String x a b : String x a +:+ b = String x (a +:+ b).
Proof. reflexivity. Qed.

Lemma append_cons_assoc a c b d :
  (a +:+ String c b) +:+ d = a +:+ String c (b +:+ d).
Proof.
  induction a as [|x a IH]; [done|]. by rewrite !append_String, IH.
Qed.

Lemma append_char c s : String c EmptyString +:+ s = String c s.
Proof. reflexivity. Qed.

(** X7. The type built from a header with one bracket group: the
    stripped text before the bracket, a blank, and the range between the
    brackets with its leading blanks removed.  Without a net type the
    type starts with the blank. *)
Theorem port_header_one_bracket new_mode t r i :
  Py.contains "[" t = false →
  Py.contains "[" r = false → Py.contains "]" r = false →
  Py.contains "[" i = false → Py.contains "]" i = false →
  port_header new_mode (t +:+ "[" +:+ r +:+ "]" +:+ i) =
  Ok (Py.strip t +:+ " [" +:+ Py.lstrip r +:+ "]").
Proof.
  intros Ht Hr1 Hr2 Hi1 Hi2. unfold port_header. rewrite !append_char.
  rewrite strip_around by done.
  rewrite rstrip_app_nonblank by done.
  rewrite contains_mid. simpl. rewrite orb_true_r. simpl.
  rewrite split_on_app by (by apply contains_lstrip).
  rewrite split_on_none
    by (rewrite contains_mid; simpl; rewrite Hr1; by apply contains_rstrip).
  simpl. rewrite strip_around by done.
  rewrite split_on_app by (by apply contains_lstrip).
  rewrite split_on_none by (by do 2 apply contains_rstrip).
  simpl. rewrite strip_lstrip.
  destruct (decide (Py.strip t = EmptyString)) as [->|Hne]; done.
Qed.

Lemma port_header_one_bracket_witness :
  port_header "output" (" reg " +:+ "[" +:+ "3:0" +:+ "]" +:+ " c ") =
  Ok (Py.strip " reg " +:+ " [" +:+ Py.lstrip "3:0" +:+ "]").
Proof.
  apply (port_header_one_bracket "output" " reg " "3:0" " c ");
    reflexivity.
Defined.

(** X8. The type built from a header with two bracket groups: the
    stripped text before the first bracket, a blank, the range, and the
    stripped array dimension right after it.  What stands between the two
    groups is dropped. *)
Theorem port_header_two_brackets new_mode t r u a i :
  Py.contains "[" t = false →
  Py.contains "[" r = false → Py.contains "]" r = false →
  Py.contains "[" u = false → Py.contains "]" u = false →
  Py.contains "[" a = false → Py.contains "]" a = false →
  Py.contains "[" i = false → Py.contains "]" i = false →
  port_header new_mode
    (t +:+ "[" +:+ r +:+ "]" +:+ u +:+ "[" +:+ a +:+ "]" +:+ i) =
  Ok ((Py.strip t +:+ " [" +:+ Py.lstrip r +:+ "]")
        +:+ "[" +:+ Py.strip a +:+ "]").
Proof.
  intros Ht Hr1 Hr2 Hu1 Hu2 Ha1 Ha2 Hi1 Hi2. unfold port_header.
  rewrite !append_char.
  rewrite strip_around by done.
  rewrite rstrip_app_nonblank by done.
  rewrite rstrip_app_nonblank by done.
  rewrite rstrip_app_nonblank by done.
  rewrite contains_mid. simpl. rewrite orb_true_r. simpl.
  rewrite split_on_app by (by apply contains_lstrip).
  rewrite <- (append_cons_assoc r "]" u).
  rewrite split_on_app
    by (rewrite contains_mid; simpl; by rewrite Hr1, Hu1).
  rewrite split_on_none
    by (rewrite contains_mid; simpl; rewrite Ha1; by apply contains_rstrip).
  simpl. rewrite !strip_around by done.
  rewrite !split_on_app by (by apply contains_lstrip).
  rewrite !split_on_none by (by repeat apply contains_rstrip).
  simpl. rewrite !strip_lstrip.
  destruct (decide (Py.strip t = EmptyString)) as [->|Hne]; done.
Qed.

Lemma port_header_two_brackets_witness :
  port_header "input"
    (" wire " +:+ "[" +:+ "7:0" +:+ "]" +:+ " x " +:+ "[" +:+ " 3:0 "
       +:+ "]" +:+ " d ") =
  Ok ((Py.strip " wire " +:+ " [" +:+ Py.lstrip "7:0" +:+ "]")
        +:+ "[" +:+ Py.strip " 3:0 " +:+ "]").
Proof.
  apply (port_header_two_brackets "input" " wire " "7:0" " x " " 3:0 " " d ");
    reflexivity.
Defined.

(** ** Further properties of the extractor *)

(** X9. A call that raises stores nothing: the path was not in the
    cache, the file was opened, and the extractor is left as it was, so
    the next call for the path reads the file again. *)
Theorem failed_call_stores_nothing fs self fname type_filter e :
  (extract_objects fs self fname type_filter).1.1 = Raise e →
  object_cache self !! fname = None ∧
  (extract_objects fs self fname type_filter).1.2 = self ∧
  head (extract_objects fs self fname type_filter).2 = Some (Read_file fname).
Proof.
  unfold extract_objects.
  destruct (object_cache self !! fname); [done|].
  destruct (fs fname); [|done].
  by destruct (parse_verilog _).
Qed.

Lemma failed_call_stores_nothing_witness :
  object_cache new_extractor !! "a.v" = None ∧
  (extract_objects (one_file scenario_A) new_extractor "a.v" None).1.2
  = new_extractor ∧
  head (extract_objects (one_file scenario_A) new_extractor "a.v" None).2
  = Some (Read_file "a.v").
Proof.
  apply (failed_call_stores_nothing (one_file scenario_A) new_extractor
           "a.v" None TypeError).
  vm_compute. reflexivity.
Defined.

(** X10. A call for one path leaves what the cache holds for every
    other path as it is. *)
Theorem other_paths_untouched fs self fname type_filter f :
  f ≠ fname →
  object_cache (extract_objects fs self fname type_filter).1.2 !! f =
  object_cache self !! f.
Proof.
  intros Hne. unfold extract_objects.
  destruct (object_cache self !! fname); [done|].
  destruct (fs fname); [|done].
  destruct (parse_verilog _); [|done]. simpl.
  by rewrite lookup_insert_ne.
Qed.

Lemma other_paths_untouched_witness :
  object_cache
    (extract_objects (one_file descending) new_extractor "a.v" None).1.2
    !! "b.v" =
  object_cache new_extractor !! "b.v".
Proof.
  apply (other_paths_untouched (one_file descending) new_extractor "a.v"
           None "b.v").
  discriminate.
Defined.

Lemma after_calls_sound cs : ∀ self f objs,
  object_cache (after_calls self cs) !! f = Some objs →
  object_cache self !! f = Some objs ∨
  ∃ c text, c ∈ cs ∧ call_fname c = f ∧ call_fs c f = Ok text ∧
            parse_verilog text = Ok objs.
Proof.
  induction cs as [|c cs IH]; intros self f objs H; [by left|].
  simpl in H. apply IH in H as [H|(c' & text & Hin & ? & ? & ?)].
  - unfold extract_objects in H.
    destruct (object_cache self !! call_fname c) eqn:Ec; [by left|].
    destruct (call_fs c (call_fname c)) as [text|] eqn:Efs; [|by left].
    destruct (parse_verilog text) as [objs'|] eqn:Ep; [|by left].
    simpl in H. destruct (decide (call_fname c = f)) as [<-|Hne].
    + rewrite lookup_insert_eq in H. inversion H; subst objs'.
      right. exists c, text. split; [left|done].
    + rewrite lookup_insert_ne in H by done. by left.
  - right. exists c', text. split; [by right|done].
Qed.

(** X11. Whatever an extractor holds for a path after any sequence of
    calls is the result [parse_verilog] gave on the text that one of the
    calls read under that path. *)
Theorem cache_holds_parse_results cs f objs :
  object_cache (after_calls new_extractor cs) !! f = Some objs →
  ∃ c text, c ∈ cs ∧ call_fname c = f ∧ call_fs c f = Ok text ∧
            parse_verilog text = Ok objs.
Proof.
  intros [H|H]%after_calls_sound; [|done].
  simpl in H. by rewrite lookup_empty in H.
Qed.

Lemma cache_holds_parse_results_witness :
  ∃ c text,
    c ∈ [Call (one_file scenario_A) "b.v" None;
         Call (one_file descending) "a.v" (Some C_VerilogParameter)] ∧
    call_fname c = "a.v" ∧ call_fs c "a.v" = Ok text ∧
    parse_verilog text =
    Ok [plain_module "m"
          [input_port "a" " [1:0]" None; input_port "b" " [1:0]" None;
           input_port "c" " [1:0]" None]].
Proof.
  apply (cache_holds_parse_results
           [Call (one_file scenario_A) "b.v" None;
            Call (one_file descending) "a.v" (Some C_VerilogParameter)]
           "a.v").
  vm_compute. reflexivity.
Defined.

(** X12. On a path the cache does not hold, [extract_objects] gives what
    [extract_objects_from_source] gives on the text of the file, the
    value or the exception. *)
Theorem extract_objects_as_from_source fs self fname type_filter text :
  object_cache self !! fname = None →
  fs fname = Ok text →
  (extract_objects fs self fname type_filter).1.1 =
  extract_objects_from_source self text type_filter.
Proof.
  intros Hmiss Hfs. unfold extract_objects, extract_objects_from_source.
  rewrite Hmiss, Hfs. by destruct (parse_verilog text).
Qed.

Lemma extract_objects_as_from_source_witness :
  (extract_objects (one_file scenario_A) new_extractor "a.v"
     (Some C_VerilogModule)).1.1 =
  extract_objects_from_source new_extractor scenario_A (Some C_VerilogModule).
Proof.
  apply (extract_objects_as_from_source (one_file scenario_A) new_extractor
           "a.v" (Some C_VerilogModule) scenario_A); reflexivity.
Defined.

(** ** File names *)

Lemma chars_app a b :
  list_ascii_of_string (a +:+ b) =
  list_ascii_of_string a ++ list_ascii_of_string b.
Proof.
  induction a as [|x a IH]; [done|]. rewrite append_String. simpl.
  by rewrite IH.
Qed.

Lemma rfind_from_app c a : ∀ i b acc,
  rfind_from i c (a ++ b) acc =
  rfind_from (i + length a) c b (rfind_from i c a acc).
Proof.
  induction a as [|x a IH]; intros i b acc; simpl.
  - by rewrite Nat.add_0_r.
  - rewrite IH. f_equal. lia.
Qed.

Lemma rfind_from_absent c s : ∀ i acc,
  Py.contains c s = false →
  rfind_from i c (list_ascii_of_string s) acc = acc.
Proof.
  induction s as [|x s IH]; intros i acc; simpl; [done|].
  intros [Hx Hs]%orb_false_elim. rewrite Hx. by apply IH.
Qed.

Lemma rfind_from_bound c l : ∀ i acc d,
  rfind_from i c l acc = Some d →
  acc = Some d ∨ (i ≤ d < i + length l).
Proof.
  induction l as [|x l IH]; intros i acc d H; simpl in *; [by left|].
  apply IH in H as [H|H]; [|right; lia].
  destruct (Ascii.eqb x c); [|by left].
  inversion H; subst. right. lia.
Qed.

Lemma dir_prefix_filename dir :
  dir_prefix dir →
  match rfind "/" (list_ascii_of_string dir) with
  | Some s => S s
  | None => 0
  end = length (list_ascii_of_string dir).
Proof.
  intros [->|[d ->]]; [done|]. unfold rfind.
  rewrite chars_app, rfind_from_app. simpl. rewrite length_app. simpl. lia.
Qed.

Lemma existsb_non_dot s :
  existsb (fun x => negb (Ascii.eqb x ".")) (list_ascii_of_string s) =
  has_non_dot s.
Proof. induction s as [|x s IH]; simpl; [done|]. by rewrite IH. Qed.

(** X13. A name made of a directory prefix, a stem, a dot and an
    extension without dot or slash is taken for Verilog exactly when the
    stem is not made of dots only and the extension is [v] or [vlog] in
    any mix of cases. *)
Theorem is_verilog_by_extension dir stem ext :
  dir_prefix dir →
  Py.contains "/" stem = false →
  Py.contains "/" ext = false → Py.contains "." ext = false →
  is_verilog (dir +:+ stem +:+ "." +:+ ext) =
  has_non_dot stem &&
  (bool_decide (lower ext = "vlog") || bool_decide (lower ext = "v")).
Proof.
  intros Hdir Hs He1 He2. unfold is_verilog, splitext_ext.
  rewrite append_char, !chars_app. simpl.
  set (D := list_ascii_of_string dir). set (S' := list_ascii_of_string stem).
  set (E := list_ascii_of_string ext).
  assert (Hsep : rfind "/" (D ++ S' ++ "."%char :: E) = rfind "/" D).
  { unfold rfind. rewrite rfind_from_app, rfind_from_app. simpl.
    subst S' E. by rewrite rfind_from_absent, rfind_from_absent. }
  assert (Hdot : rfind "." (D ++ S' ++ "."%char :: E)
                 = Some (length D + length S')).
  { unfold rfind. rewrite rfind_from_app, rfind_from_app. simpl.
    subst E. by rewrite rfind_from_absent. }
  rewrite Hsep, Hdot. subst D. rewrite (dir_prefix_filename _ Hdir).
  set (D := list_ascii_of_string dir).
  rewrite decide_True by lia.
  replace (length D + length S' - length D) with (length S') by lia.
  rewrite drop_app_length, take_app_length.
  subst S'. rewrite existsb_non_dot.
  destruct (has_non_dot stem); simpl; [|done].
  rewrite app_assoc, <- length_app, drop_app_length. simpl.
  subst E. rewrite string_of_list_ascii_of_string.
  change (lower_char ".") with "."%char.
  apply eq_true_iff_eq. rewrite !orb_true_iff, !bool_decide_eq_true.
  split; (intros [H|H]; [left|right]); congruence.
Qed.

Lemma is_verilog_by_extension_witness :
  is_verilog ("/src/rtl/" +:+ "...top" +:+ "." +:+ "VLog") =
  has_non_dot "...top" &&
  (bool_decide (lower "VLog" = "vlog") || bool_decide (lower "VLog" = "v")) ∧
  is_verilog ("" +:+ ".." +:+ "." +:+ "v") =
  has_non_dot ".." &&
  (bool_decide (lower "v" = "vlog") || bool_decide (lower "v" = "v")).
Proof.
  split.
  - apply (is_verilog_by_extension "/src/rtl/" "...top" "VLog");
      [right; by exists "/src/rtl"|reflexivity..].
  - apply (is_verilog_by_extension "" ".." "v"); [by left|reflexivity..].
Defined.

(** X14. A name whose last component has no dot is never taken for
    Verilog, whatever dots its directories have. *)
Theorem is_verilog_needs_a_dot dir base :
  dir_prefix dir →
  Py.contains "/" base = false → Py.contains "." base = false →
  is_verilog (dir +:+ base) = false.
Proof.
  intros Hdir Hb1 Hb2. unfold is_verilog, splitext_ext.
  rewrite chars_app.
  set (D := list_ascii_of_string dir). set (B := list_ascii_of_string base).
  assert (Hsep : rfind "/" (D ++ B) = rfind "/" D).
  { unfold rfind. rewrite rfind_from_app. subst B. by rewrite rfind_from_absent. }
  assert (Hdot : rfind "." (D ++ B) = rfind "." D).
  { unfold rfind. rewrite rfind_from_app. subst B. by rewrite rfind_from_absent. }
  rewrite Hsep, Hdot. subst D. rewrite (dir_prefix_filename _ Hdir).
  destruct (rfind "." (list_ascii_of_string dir)) as [d|] eqn:Ed; [|done].
  apply rfind_from_bound in Ed as [?|Ed]; [done|].
  rewrite decide_False by lia. done.
Qed.

Lemma is_verilog_needs_a_dot_witness : is_verilog ("lib.v/" +:+ "top") = false.
Proof.
  apply (is_verilog_needs_a_dot "lib.v/" "top");
    [right; by exists "lib.v"|reflexivity..].
Defined.

(** ** The groups of a token *)

Lemma bound_insert g i j (s : string) :
  bound g j → bound (<[i := Some s]> g) j.
Proof.
  intros [s' Hs]. unfold bound. destruct (decide (i = j)) as [->|Hne].
  - exists s. apply list_lookup_insert_eq. by eapply lookup_lt_Some.
  - exists s'. by rewrite list_lookup_insert_ne.
Qed.

Lemma run_groups {R} r : ∀ c g (k : Re.cursor → Re.groups → option R) x,
  Re.run r c g k = Some x →
  ∃ c' g', k c' g' = Some x ∧ length g' = length g ∧
           (∀ i, bound g i → bound g' i) ∧
           (∀ i, i ∈ binds r → i < length g → bound g' i).
Proof.
  induction r as [s|p|greedy lo p|r IH|r1 IH1 r2 IH2|r1 IH1 r2 IH2|i r IH|];
    intros c g k x H; simpl in H.
  - destruct (Re.eat s c) as [c'|]; [|done].
    exists c', g. repeat split; [done|done|by intros ? ?%elem_of_nil].
  - destruct (Re.step1 c) as [[y c']|]; [|done]. destruct (p y); [|done].
    exists c', g. repeat split; [done|done|by intros ? ?%elem_of_nil].
  - apply rep_taken in H as (c' & Hk & _).
    exists c', g. repeat split; [done|done|by intros ? ?%elem_of_nil].
  - unfold Re.orelse in H. destruct (Re.run r c g k) eqn:E.
    + inversion H; subst. apply IH in E as (c' & g' & ? & ? & ? & _).
      exists c', g'. repeat split; [done|done|done|by intros ? ?%elem_of_nil].
    + exists c, g. repeat split; [done|done|by intros ? ?%elem_of_nil].
  - unfold Re.orelse in H. destruct (Re.run r1 c g k) eqn:E.
    + inversion H; subst. apply IH1 in E as (c' & g' & ? & ? & ? & _).
      exists c', g'. repeat split; [done|done|done|by intros ? ?%elem_of_nil].
    + apply IH2 in H as (c' & g' & ? & ? & ? & _).
      exists c', g'. repeat split; [done|done|done|by intros ? ?%elem_of_nil].
  - apply IH1 in H as (c1 & g1 & H & Hl1 & Hp1 & Hb1).
    apply IH2 in H as (c2 & g2 & H & Hl2 & Hp2 & Hb2).
    exists c2, g2. repeat split; [done|congruence|by auto|].
    simpl. intros j [Hj|Hj]%elem_of_app Hlt.
    + apply Hp2. by apply Hb1.
    + apply Hb2; [done|]. by rewrite Hl1.
  - apply IH in H as (c' & g' & H & Hl & Hp & Hb).
    unfold Re.groups in *.
    eexists c', _. split; [exact H|]. split; [by rewrite length_insert|].
    split.
    + intros j Hj. apply bound_insert. by apply Hp.
    + simpl. intros j [->|Hj]%elem_of_cons Hlt.
      * eexists. apply list_lookup_insert_eq. by rewrite Hl.
      * apply bound_insert. by apply Hb.
  - destruct (Re.at_boundary c); [|done].
    exists c, g. repeat split; [done|done|by intros ? ?%elem_of_nil].
Qed.

Lemma match_groups r n pv ahead m g :
  Re.match_ r n pv ahead = Some (m, g) →
  length g = n ∧ ∀ i, i ∈ binds r → i < n → bound g i.
Proof.
  unfold Re.match_. intros H.
  apply run_groups in H as (c' & g' & H & Hl & _ & Hb).
  inversion H; subst. rewrite length_replicate in *. split; [done|].
  intros i Hi Hlt. by apply Hb.
Qed.

Lemma verilog_tokens_groups_ok s r :
  r ∈ verilog_tokens s → rule_groups_ok r = true.
Proof.
  intros H.
  assert (Hall : forallb rule_groups_ok (verilog_tokens s) = true)
    by (destruct s; vm_compute; reflexivity).
  rewrite forallb_forall in Hall. apply Hall. by apply list_elem_of_In.
Qed.

(** X15. Every token a rule of the table can yield carries what the
    parser takes from it: two groups where the parser unpacks two, and a
    text in every group it reads as a string. *)
Theorem table_tokens_fit_parser s r a pv ahead n g p :
  r ∈ verilog_tokens s →
  rule_action r = Some a →
  Re.match_ (pattern r) (n_groups r) pv ahead = Some (n, g) →
  token_ok (Token p a g).
Proof.
  intros Hin Ha Hm. apply verilog_tokens_groups_ok in Hin.
  unfold rule_groups_ok in Hin. rewrite Ha in Hin.
  apply andb_prop in Hin as [Hu Hr].
  apply match_groups in Hm as [Hlen Hb].
  split; simpl.
  - intros k Hk. rewrite Hk in Hu. apply Nat.eqb_eq in Hu. congruence.
  - intros i Hi. rewrite forallb_forall in Hr.
    apply list_elem_of_In, Hr in Hi.
    apply andb_prop in Hi as [Hlt Hin].
    apply Nat.ltb_lt in Hlt. apply bool_decide_eq_true in Hin. by apply Hb.
Qed.

Lemma table_tokens_fit_parser_witness :
  token_ok (Token 25 A_port_param [Some "b"]).
Proof.
  apply (table_tokens_fit_parser S_module_port
           (Rule Pat.port_param 1 (Some A_port_param) None) A_port_param
           (Some ","%char) (list_ascii_of_string " b, input") 3).
  - unfold verilog_tokens. do 3 right. left.
  - reflexivity.
  - vm_compute. reflexivity.
Defined.

(** ** The place of every token *)

Lemma verilog_tokens_moves_ok sh r :
  sh ∈ shapes → r ∈ verilog_tokens sh.2 → rule_moves_ok sh r = true.
Proof.
  intros Hsh Hr.
  assert (Hall : forallb (fun sh => forallb (rule_moves_ok sh)
                                       (verilog_tokens sh.2)) shapes = true)
    by (vm_compute; reflexivity).
  rewrite forallb_forall in Hall.
  apply list_elem_of_In, Hall in Hsh.
  rewrite forallb_forall in Hsh. apply Hsh. by apply list_elem_of_In.
Qed.

Lemma scan_tokens fuel : ∀ sh p pv ahead,
  sh ∈ shapes →
  accepts (in_module sh) (MiniLexer.scan fuel sh.1 sh.2 p pv ahead).1 ∧
  Forall token_ok (MiniLexer.scan fuel sh.1 sh.2 p pv ahead).1.
Proof.
  induction fuel as [|fuel IH]; intros sh p pv ahead Hsh; [done|].
  simpl. destruct ahead as [|x xs]; [done|].
  destruct (MiniLexer.first_match (verilog_tokens sh.2) pv (x :: xs))
    as [[[r n] g]|] eqn:E; [|by apply IH].
  apply first_match_rule in E as [Hin Hm].
  pose proof (verilog_tokens_moves_ok sh r Hsh Hin) as Hmv.
  unfold rule_moves_ok in Hmv.
  destruct (move sh r) as [sh'|] eqn:Emove; [|done].
  apply andb_prop in Hmv as [Hsh' Hact]. apply bool_decide_eq_true in Hsh'.
  assert (Hout :
    accepts (in_module sh)
      (match rule_action r with Some a => [Token p a g] | None => [] end ++
       (MiniLexer.scan fuel sh'.1 sh'.2 (p + n)
          (MiniLexer.prev_after pv n (x :: xs)) (drop n (x :: xs))).1) ∧
    Forall token_ok
      (match rule_action r with Some a => [Token p a g] | None => [] end ++
       (MiniLexer.scan fuel sh'.1 sh'.2 (p + n)
          (MiniLexer.prev_after pv n (x :: xs)) (drop n (x :: xs))).1)).
  { destruct (IH sh' (p + n) (MiniLexer.prev_after pv n (x :: xs))
                (drop n (x :: xs)) Hsh') as [Hacc Hok].
    destruct (rule_action r) as [a|] eqn:Ea; simpl.
    - apply andb_prop in Hact as [Hal Hnext]. apply Bool.eqb_prop in Hnext.
      rewrite <- Hnext. repeat split; [done|done|].
      constructor; [|done]. by eapply table_tokens_fit_parser.
    - apply Bool.eqb_prop in Hact. by rewrite <- Hact. }
  assert (Hgo : ∀ (out : list token),
    out = match rule_action r with Some a => [Token p a g] | None => [] end →
    accepts (in_module sh)
      (match n with
       | O => (out, MiniLexer.Stuck)
       | S _ =>
           let '(ts, e) :=
             MiniLexer.scan fuel sh'.1 sh'.2 (p + n)
               (MiniLexer.prev_after pv n (x :: xs)) (drop n (x :: xs)) in
           (out ++ ts, e)
       end).1 ∧
    Forall token_ok
      (match n with
       | O => (out, MiniLexer.Stuck)
       | S _ =>
           let '(ts, e) :=
             MiniLexer.scan fuel sh'.1 sh'.2 (p + n)
               (MiniLexer.prev_after pv n (x :: xs)) (drop n (x :: xs)) in
           (out ++ ts, e)
       end).1).
  { intros out ->. apply verilog_tokens_ok in Hin. unfold rule_ok in Hin.
    apply andb_prop in Hin as [Hnn _].
    apply match_length in Hm as [Hpos _]; [|done].
    destruct n as [|n]; [lia|].
    destruct (MiniLexer.scan fuel _ _ _ _ _) as [ts e]. exact Hout. }
  unfold move in Emove. destruct sh as [stack top]. simpl in *.
  destruct (new_state r) as [[s'|]|].
  - inversion Emove; subst sh'. by apply Hgo.
  - destruct stack as [|top' stack']; [done|].
    inversion Emove; subst sh'. by apply Hgo.
  - inversion Emove; subst sh'. by apply Hgo.
Qed.

Lemma tokens_of_accepted text :
  accepts false (tokens_of text) ∧ Forall token_ok (tokens_of text).
Proof.
  unfold tokens_of, MiniLexer.run.
  apply (scan_tokens _ ([], S_root)). left.
Qed.

(** ** The exceptions of the parser *)

Lemma index_raises {A} (l : list A) i e : Py.index l i = Raise e → e = IndexError.
Proof. unfold Py.index. destruct (l !! i); [done|]. by intros [= <-]. Qed.

Lemma index_last_raises {A} (l : list A) e :
  Py.index_last l = Raise e → e = IndexError.
Proof. unfold Py.index_last. destruct (last l); [done|]. by intros [= <-]. Qed.

Ltac raise_inv H :=
  simpl in H;
  lazymatch type of H with
  | Ok _ = Raise _ => discriminate H
  | Raise _ = Raise _ => inversion H; subst; clear H
  | mbind _ ?m = Raise _ =>
      let E := fresh "E" in
      destruct m eqn:E;
      [raise_inv H|simpl in H; inversion H; subst; clear H; raise_inv E]
  | fmap _ ?m = Raise _ =>
      let E := fresh "E" in
      destruct m eqn:E;
      [discriminate H|simpl in H; inversion H; subst; clear H; raise_inv E]
  | (let '(_, _) := ?p in _) = Raise _ => destruct p; raise_inv H
  | (if ?b then _ else _) = Raise _ => destruct b; raise_inv H
  | match ?v with VR_tuple => _ | VR_str _ => _ end = Raise _ =>
      destruct v; raise_inv H
  | Py.index _ _ = Raise _ => apply index_raises in H; subst
  | Py.index_last _ = Raise _ => apply index_last_raises in H; subst
  | _ => idtac
  end.

Lemma port_header_raises new_mode second_group e :
  port_header new_mode second_group = Raise e →
  e = TypeError ∨ e = IndexError ∨
  e = Exception ("Unknown port format: " +:+ new_mode +:+ " "
                   +:+ Py.strip second_group).
Proof.
  unfold port_header. intros H.
  destruct (Py.contains "[" (Py.strip second_group)); raise_inv H; auto.
Qed.

Lemma group_bound g i : bound g i → ∃ s, group g i = Ok s.
Proof. intros [s Hs]. exists s. unfold group. by rewrite Hs. Qed.

Lemma step_raises l t e :
  token_ok t →
  (tok_action t = A_metacomment → last_item l = None) →
  step l t = Raise e →
  raised_by_parser e.
Proof.
  intros [Hlen Hb] Hmeta H. unfold step in H. unfold raised_by_parser.
  destruct (tok_action t) eqn:Ha; simpl in Hb, Hlen.
  all: try (destruct (group_bound _ 0 (Hb 0 ltac:(set_solver))) as [s0 Hs0];
            rewrite Hs0 in H; simpl in H).
  all: try (destruct (group_bound _ 1 (Hb 1 ltac:(set_solver))) as [s1 Hs1];
            rewrite Hs1 in H; simpl in H).
  all: try done.
  - destruct (decide _); [|done]. inversion H. auto.
  - by rewrite (Hmeta eq_refl) in H.
  - specialize (Hlen 2 eq_refl).
    destruct (tok_groups t) as [|a [|b [|? ?]]]; done.
  - specialize (Hlen 2 eq_refl).
    destruct (Hb 0 ltac:(set_solver)) as [m Hm].
    destruct (Hb 1 ltac:(set_solver)) as [sg Hsg].
    destruct (tok_groups t) as [|a [|b [|? ?]]]; try done.
    simpl in Hm, Hsg. inversion Hm; subst a. inversion Hsg; subst b.
    simpl in H.
    destruct (port_header m sg) as [ty|e'] eqn:Ep; [done|].
    simpl in H. inversion H; subst e'.
    apply port_header_raises in Ep as [-> | [-> | ->]]; eauto 10.
  - destruct (decide _); [|done].
    destruct (Py.index_last (current_define l)) as [top|e'] eqn:El;
      simpl in H; inversion H; subst.
    + right. right. right. left. by exists top.
    + apply index_last_raises in El. auto.
Qed.

Lemma step_place l t l' inmod :
  step l t = Ok l' →
  allowed inmod (tok_action t) = true →
  (inmod = false → last_item l = None) →
  next_inmod inmod (tok_action t) = false → last_item l' = None.
Proof.
  intros H Hal HJ Hn.
  destruct (tok_action t) eqn:Ha; destruct inmod; try done;
    step_inv H Ha; auto.
Qed.

Lemma loop_raises ts : ∀ l inmod e,
  accepts inmod ts → Forall token_ok ts →
  (inmod = false → last_item l = None) →
  loop l ts = Raise e → raised_by_parser e.
Proof.
  induction ts as [|t ts IH]; intros l inmod e Hacc Hok HJ H; [done|].
  simpl in *. destruct Hacc as [Hal Hacc].
  apply Forall_cons in Hok as [Ht Hok].
  destruct (step l t) as [l1|e1] eqn:E; simpl in H.
  - eapply IH; [exact Hacc|exact Hok| |exact H].
    by eapply step_place.
  - inversion H; subst e1. eapply step_raises; [exact Ht| |exact E].
    intros Ha. apply HJ. rewrite Ha in Hal. by destruct inmod.
Qed.

Lemma loop_place pre : ∀ l l' inmod post,
  accepts inmod (pre ++ post) →
  (inmod = false → last_item l = None) →
  loop l pre = Ok l' →
  ∃ inmod', accepts inmod' post ∧ (inmod' = false → last_item l' = None).
Proof.
  induction pre as [|t pre IH]; intros l l' inmod post Hacc HJ H; simpl in *.
  - inversion H; subst. eauto.
  - destruct Hacc as [Hal Hacc].
    destruct (step l t) as [l1|] eqn:E; [|done]. simpl in H.
    eapply IH; [exact Hacc| |exact H]. by eapply step_place.
Qed.

(** X16. Whatever the text, [parse_verilog] returns or raises one of
    five exceptions: [TypeError] or [IndexError] from a port header, the
    two guard failures, or the refusal of a header with more than two
    bracket groups. *)
Theorem parse_verilog_exceptions text e :
  parse_verilog text = Raise e → raised_by_parser e.
Proof.
  rewrite parse_verilog_tokens. unfold parse_tokens. intros H.
  destruct (loop initial (MiniLexer.run text).1) as [l|e'] eqn:E; [done|].
  inversion H; subst e'.
  destruct (tokens_of_accepted text) as [Hacc Hok].
  by eapply (loop_raises _ initial false).
Qed.

Lemma parse_verilog_exceptions_witness : raised_by_parser TypeError.
Proof.
  apply (parse_verilog_exceptions scenario_A).
  vm_compute. reflexivity.
Defined.

(** X17. The assignment of a trailing metacomment to the last item is
    never reached: whenever the scanner yields a metacomment token,
    [last_item] is [None]. *)
Theorem trailing_branch_unreachable text pre t post l :
  tokens_of text = pre ++ t :: post →
  tok_action t = A_metacomment →
  loop initial pre = Ok l →
  last_item l = None.
Proof.
  intros Hts Ha Hl.
  destruct (tokens_of_accepted text) as [Hacc _]. rewrite Hts in Hacc.
  destruct (loop_place pre initial l false (t :: post) Hacc (fun _ => eq_refl) Hl)
    as (inmod' & [Hal _] & HJ).
  apply HJ. rewrite Ha in Hal. by destruct inmod'.
Qed.

Lemma trailing_branch_unreachable_witness :
  last_item (locals_after (take 5 (tokens_of note_after_module))) = None.
Proof.
  apply (trailing_branch_unreachable note_after_module
           (take 5 (tokens_of note_after_module))
           (Token 56 A_metacomment [Some " tail"]) []).
  - vm_compute. reflexivity.
  - reflexivity.
  - vm_compute. reflexivity.
Defined.

(** ** The token table *)

(** X18. Every rule of the table consumes at least one character when
    it matches, and no more than the text holds: no pattern of the table
    matches the empty text. *)
Theorem table_rules_advance s r pv ahead n g :
  r ∈ verilog_tokens s →
  Re.match_ (pattern r) (n_groups r) pv ahead = Some (n, g) →
  0 < n ≤ length ahead.
Proof.
  intros Hin Hm. apply verilog_tokens_ok in Hin. unfold rule_ok in Hin.
  apply andb_prop in Hin as [Hnn _]. by eapply match_length.
Qed.

Lemma table_rules_advance_witness :
  0 < 3 ≤ length (list_ascii_of_string " b, input").
Proof.
  apply (table_rules_advance S_module_port
           (Rule Pat.port_param 1 (Some A_port_param) None)
           (Some ","%char) (list_ascii_of_string " b, input") 3 [Some "b"]).
  - unfold verilog_tokens. do 3 right. left.
  - vm_compute. reflexivity.
Defined.

(** X19. The state stack under the table: from each of the six stacks
    that start at [root], every rule of the top state leads to one of
    the six again.  No rule pops [root], and nothing is ever pushed on
    [parameters], [module_port] or [block_comment]. *)
Theorem table_keeps_stack_shape sh r :
  sh ∈ shapes → r ∈ verilog_tokens sh.2 →
  ∃ sh', move sh r = Some sh' ∧ sh' ∈ shapes.
Proof.
  intros Hsh Hr. pose proof (verilog_tokens_moves_ok sh r Hsh Hr) as H.
  unfold rule_moves_ok in H. destruct (move sh r) as [sh'|]; [|done].
  apply andb_prop in H as [H _]. apply bool_decide_eq_true in H. eauto.
Qed.

Lemma table_keeps_stack_shape_witness :
  ∃ sh', move ([S_module; S_root], S_module_port)
              (Rule Pat.close 0 None (Some Pop)) = Some sh' ∧ sh' ∈ shapes.
Proof.
  apply (table_keeps_stack_shape ([S_module; S_root], S_module_port)
           (Rule Pat.close 0 None (Some Pop))).
  - unfold shapes. do 4 right. left.
  - simpl. do 4 right. left.
Defined.
(** ** What a module's ports and sections are made of *)

Lemma od_set_keys_elem {K V} `{EqDecision K} (k k' : K) (v : V) d :
  k' ∈ od_keys (od_set k v d) ↔ k' = k ∨ k' ∈ od_keys d.
Proof.
  unfold od_keys. induction d as [|[k0 v0] d IH]; simpl.
  - rewrite list_elem_of_singleton. set_solver.
  - destruct (decide (k0 = k)) as [->|Hne]; simpl.
    + set_solver.
    + rewrite !elem_of_cons, IH. naive_solver.
Qed.

Lemma complete_pending_keys mode ptype items d k :
  k ∈ od_keys (complete_pending mode ptype items d) ↔
  k ∈ items ∨ k ∈ od_keys d.
Proof.
  induction items as [|i items IH] using rev_ind.
  - simpl. set_solver.
  - rewrite complete_pending_snoc, od_set_keys_elem, IH. set_solver.
Qed.

Lemma listed_from_cons acc t ts :
  listed_from acc (t :: ts) = listed_from (listed_from acc [t]) ts.
Proof. simpl. by destruct (tok_action t). Qed.

Lemma elem_of_fst_fmap (x : string) (ks : list port_key) :
  x ∈ ks.*1 ↔ ∃ k, k ∈ ks ∧ k.1 = x.
Proof.
  rewrite list_elem_of_fmap. split; intros (k & ? & ?); exists k; done.
Qed.

Lemma complete_pending_names mode ptype items d x :
  x ∈ (od_keys (complete_pending mode ptype items d)).*1 ↔
  x ∈ (od_keys d).*1 ++ items.*1.
Proof.
  rewrite elem_of_app, !elem_of_fst_fmap. split.
  - intros (k & [Hk|Hk]%complete_pending_keys & Hx); eauto.
  - intros [(k & Hk & Hx)|(k & Hk & Hx)]; exists k;
      (split; [apply complete_pending_keys; auto|done]).
Qed.

Lemma step_listing l t l' acc :
  step l t = Ok l' →
  listing_inv l acc → listing_inv l' (listed_from acc [t]).
Proof.
  intros H (Hn & Hc & Hs). unfold listing_inv, port_names in *. simpl.
  destruct (tok_action t) eqn:Ha.
  all: try solve [step_inv H Ha; done].
  - (* module_port_start *)
    apply step_port_start in H as Hp; [|done]. destruct Hp as [Hp Hi].
    assert (Hrest : port_param_index l' = port_param_index l ∧
                    sections l' = sections l).
    { clear Hp Hi. by step_inv H Ha. }
    destruct Hrest as [-> ->]. rewrite Hp, Hi. repeat split; [| |done|done].
    + intros Hx. apply Hn. rewrite app_nil_r in Hx.
      by apply complete_pending_names in Hx.
    + intros Hx. rewrite app_nil_r. apply complete_pending_names. by apply Hn.
  - (* end_module *)
    assert (Hrest : port_param_index l' = port_param_index l ∧
                    sections l' = sections l ∧
                    param_items l' = param_items l).
    { destruct (step_end_module _ _ _ Ha H) as (Hd & _ & _).
      unfold step in H. rewrite Ha, Hd in H. simpl in H. by inversion H. }
    destruct Hrest as (-> & -> & ->).
    apply step_end_module in H as (_ & Hp & _); [|done]. rewrite Hp.
    repeat split; [| |done|done].
    + intros [Hx|Hx]%elem_of_app; apply Hn.
      * by apply complete_pending_names in Hx.
      * apply elem_of_app. by right.
    + intros Hx. apply elem_of_app. left. apply complete_pending_names.
      by apply Hn.
  - (* section_meta *)
    step_inv H Ha. repeat split; [by apply Hn|by apply Hn|done|].
    apply Forall_app. split; [done|]. apply Forall_singleton. simpl. lia.
  - (* port_param *)
    step_inv H Ha.
    unfold group in E. destruct (tok_groups t) as [|[s|] gs]; try done.
    simpl in E. inversion E; subst a.
    repeat split.
    + rewrite fmap_app, app_assoc. intros [Hx|Hx]%elem_of_app.
      * apply elem_of_app. left. by apply Hn.
      * apply elem_of_app. by right.
    + rewrite fmap_app, app_assoc. intros [Hx|Hx]%elem_of_app.
      * apply elem_of_app. left. by apply Hn.
      * apply elem_of_app. by right.
    + rewrite length_app. simpl. lia.
    + eapply Forall_impl; [exact Hs|]. intros x Hx. simpl in Hx.
      rewrite length_app. simpl. lia.
Qed.

Lemma loop_listing ts : ∀ l l' acc,
  loop l ts = Ok l' → listing_inv l acc → listing_inv l' (listed_from acc ts).
Proof.
  induction ts as [|t ts IH]; intros l l' acc H Hinv.
  - simpl in H. by inversion H; subst.
  - simpl in H. destruct (step l t) as [l1|] eqn:E; [|done]. simpl in H.
    rewrite listed_from_cons. eapply IH; [exact H|]. by eapply step_listing.
Qed.

Lemma initial_listing : listing_inv initial [].
Proof. repeat split; simpl; try done; set_solver. Qed.

Lemma end_module_emits ts t ms :
  tok_action t = A_end_module →
  parse_tokens (ts ++ [t]) = Ok ms →
  ∃ l l',
    loop initial ts = Ok l ∧ step l t = Ok l' ∧
    last ms =
    Some (deref (store l')
            (mkModule (name l) module (metacomments l) None (generics l)
               (sort_by_name (od_values (ports l'))) (dict_of (sections l)))).
Proof.
  intros Ha. unfold parse_tokens. rewrite loop_app.
  destruct (loop initial ts) as [l|] eqn:El; [|done]. simpl.
  destruct (step l t) as [l'|] eqn:Es; [|done]. simpl. intros [= <-].
  destruct (step_end_module _ _ _ Ha Es) as (_ & _ & Ho).
  exists l, l'. split; [done|]. split; [done|].
  unfold returned. rewrite Ho, fmap_app. simpl. by rewrite last_snoc.
Qed.

Lemma od_values_names d :
  Forall (fun e => key_of e.2 = e.1) d →
  p_name <$> od_values d = (od_keys d).*1.
Proof.
  unfold od_values, od_keys. induction 1 as [|[k v] d Hk _ IH]; [done|].
  rewrite !fmap_cons, IH. simpl in *. by rewrite <- Hk.
Qed.

(** X20. The ports of a module that closes are exactly the identifiers
    that [port_param] tokens listed since the module opened: an
    identifier named only in a header is not among them. *)
Theorem ports_are_listed_identifiers ts t ms :
  tok_action t = A_end_module →
  parse_tokens (ts ++ [t]) = Ok ms →
  ∃ m, last ms = Some m ∧
       ∀ x, x ∈ p_name <$> m_ports m ↔ x ∈ listed_from [] ts.
Proof.
  intros Ha Hp.
  destruct (end_module_emits ts t ms Ha Hp) as (l & l' & Hl & Hs & Hlast).
  eexists. split; [exact Hlast|]. simpl. intros x.
  rewrite sort_by_name_perm.
  assert (Hok : ports_ok (ports l')).
  { eapply (loop_ports_ok (ts ++ [t])). rewrite loop_app, Hl. simpl.
    by rewrite Hs. }
  rewrite od_values_names by apply Hok.
  destruct (loop_listing ts initial l [] Hl initial_listing) as (Hn & _ & _).
  apply step_end_module in Hs as (_ & -> & _); [|done].
  rewrite complete_pending_names. apply Hn.
Qed.

Lemma ports_are_listed_identifiers_witness :
  ∃ m, last [plain_module "m" [input_port "a" "reg [3:0]" None]] = Some m ∧
       ∀ x, x ∈ p_name <$> m_ports m ↔
            x ∈ listed_from [] (removelast (tokens_of same_guard)).
Proof.
  assert (E : parse_tokens (removelast (tokens_of same_guard)
                              ++ [Token 53 A_end_module []])
              = Ok [plain_module "m" [input_port "a" "reg [3:0]" None]])
    by (vm_compute; reflexivity).
  apply (ports_are_listed_identifiers (removelast (tokens_of same_guard))
           (Token 53 A_end_module []) _ eq_refl E).
Defined.

Lemma dict_of_lookup pairs i v : dict_of pairs !! i = Some v → (i, v) ∈ pairs.
Proof.
  unfold dict_of. induction pairs as [|[k w] pairs IH] using rev_ind.
  - simpl. by rewrite lookup_empty.
  - rewrite foldl_snoc. simpl. destruct (decide (k = i)) as [->|Hne].
    + rewrite lookup_insert_eq. intros [= ->]. set_solver.
    + rewrite lookup_insert_ne by done. set_solver.
Qed.

(** X21. A section of a module that closes is keyed by a count of
    listed identifiers: no key exceeds the number of [port_param] tokens
    since the module opened. *)
Theorem section_keys_bounded ts t ms :
  tok_action t = A_end_module →
  parse_tokens (ts ++ [t]) = Ok ms →
  ∃ m, last ms = Some m ∧
       ∀ i label, m_sections m !! i = Some label →
                  i ≤ length (listed_from [] ts).
Proof.
  intros Ha Hp.
  destruct (end_module_emits ts t ms Ha Hp) as (l & l' & Hl & Hs & Hlast).
  eexists. split; [exact Hlast|]. simpl. intros i label Hi.
  apply dict_of_lookup in Hi.
  destruct (loop_listing ts initial l [] Hl initial_listing) as (_ & _ & Hsec).
  rewrite Forall_forall in Hsec. by apply Hsec in Hi.
Qed.

Lemma section_keys_bounded_witness :
  ∃ m, last [mkModule (Some "m") module [] None []
               [input_port "a" " [1:0]" None; input_port "b" " [1:0]" None]
               (<[1 := "data"]> (<[0 := "clocks"]> ∅))
             : VerilogModule] = Some m ∧
       ∀ i label, m_sections m !! i = Some label →
                  i ≤ length (listed_from [] (removelast (tokens_of with_sections))).
Proof.
  assert (E : parse_tokens (removelast (tokens_of with_sections)
                              ++ [Token 67 A_end_module []])
              = Ok [mkModule (Some "m") module [] None []
                      [input_port "a" " [1:0]" None;
                       input_port "b" " [1:0]" None]
                      (<[1 := "data"]> (<[0 := "clocks"]> ∅))
                    : VerilogModule])
    by (vm_compute; reflexivity).
  apply (section_keys_bounded (removelast (tokens_of with_sections))
           (Token 67 A_end_module []) _ eq_refl E).
Defined.

(** ** Generics keep the order of their declarations *)

Lemma closing_generics_cons acc t ts :
  closing_generics acc (t :: ts) =
  (if decide (tok_action t = A_end_module) then [acc] else [])
  ++ closing_generics (generic_step acc t) ts.
Proof. simpl. unfold generic_step. by destruct (tok_action t). Qed.

Lemma step_generics l t l' inmod acc closed :
  step l t = Ok l' →
  allowed inmod (tok_action t) = true →
  generics_inv l inmod acc closed →
  generics_inv l' (next_inmod inmod (tok_action t)) (generic_step acc t)
    (closed ++ if decide (tok_action t = A_end_module) then [acc] else []).
Proof.
  intros H Hal (Hlt & Hacc & Hall). unfold generics_inv, generic_step in *.
  destruct (tok_action t) eqn:Ha; destruct inmod; try done.
  all: try solve [step_inv H Ha; rewrite app_nil_r; done].
  - (* module *)
    step_inv H Ha. rewrite app_nil_r. rewrite length_app. simpl.
    split; [lia|]. split.
    + by rewrite lookup_app_r, Nat.sub_diag.
    + eapply Forall2_impl; [exact Hall|]. intros m ns (Hm & Hn & _).
      split; [lia|]. split; [by rewrite lookup_app_l|]. intros _. lia.
  - (* end_module *)
    destruct (step_end_module _ _ _ Ha H) as (Hd & _ & Ho).
    assert (Hrest : generics l' = generics l ∧ store l' = store l).
    { unfold step in H. rewrite Ha, Hd in H. simpl in H. by inversion H. }
    destruct Hrest as [-> ->]. rewrite Ho.
    split; [done|]. split; [done|]. apply Forall2_app.
    + eapply Forall2_impl; [exact Hall|]. by intros m ns (Hm & Hn & _).
    + by repeat constructor.
  - (* param_item *)
    step_inv H Ha. rewrite app_nil_r, length_alter.
    unfold group in E. destruct (tok_groups t) as [|[s|] gs]; try done.
    simpl in E. inversion E; subst a.
    split; [done|]. split.
    + rewrite list_lookup_alter_eq.
      destruct (store l !! generics l) as [g|] eqn:Eg; simpl in *.
      * by rewrite fmap_app.
      * apply lookup_ge_None in Eg. lia.
    + eapply Forall2_impl; [exact Hall|]. intros m ns (Hm & Hn & Hne).
      split; [done|]. split; [|done].
      rewrite list_lookup_alter_ne; [done|]. intros Heq. by apply Hne.
Qed.

Lemma loop_generics ts : ∀ l l' inmod acc closed,
  loop l ts = Ok l' → accepts inmod ts →
  generics_inv l inmod acc closed →
  ∃ inmod' acc',
    generics_inv l' inmod' acc' (closed ++ closing_generics acc ts).
Proof.
  induction ts as [|t ts IH]; intros l l' inmod acc closed H Hacc Hinv.
  - simpl in *. inversion H; subst. rewrite app_nil_r. eauto.
  - simpl in H. destruct (step l t) as [l1|] eqn:E; [|done]. simpl in H.
    destruct Hacc as [Hal Hacc].
    rewrite closing_generics_cons, app_assoc.
    eapply IH; [exact H|exact Hacc|]. by eapply step_generics.
Qed.

(** X22. Generics keep the order of their declarations: along a token
    sequence that keeps to the places of its tokens, as every sequence of
    the scanner does, the names of the generics of each module returned
    are the names of the [param_item] tokens between the opening of the
    module and its close, in their order. *)
Theorem generics_in_declaration_order ts (ms : list VerilogModule) :
  accepts false ts →
  parse_tokens ts = Ok ms →
  (fun m : VerilogModule => p_name <$> m_generics m) <$> ms
  = closing_generics [] ts.
Proof.
  intros Hacc. unfold parse_tokens.
  destruct (loop initial ts) as [l|] eqn:El; [|done]. intros [= <-].
  destruct (loop_generics ts initial l false [] [] El Hacc)
    as (inmod' & acc' & _ & _ & Hall).
  { split; [simpl; lia|]. split; [done|constructor]. }
  simpl in Hall. unfold returned. rewrite <- list_fmap_compose.
  induction Hall as [|m ns ms' nss (_ & Hn & _) _ IH]; [done|].
  rewrite fmap_cons. simpl. by rewrite Hn, IH.
Qed.

Lemma generics_in_declaration_order_witness :
  (fun m : VerilogModule => p_name <$> m_generics m) <$>
    (match parse_tokens (tokens_of two_parameter_modules) with
     | Ok ms => ms
     | Raise _ => []
     end)
  = closing_generics [] (tokens_of two_parameter_modules).
Proof.
  apply (generics_in_declaration_order (tokens_of two_parameter_modules)).
  - vm_compute. tauto.
  - vm_compute. reflexivity.
Defined.
(** ** The scan of a text *)

(** X23. Under the table the scan of every text runs to the end of the
    text: the stack of states never underflows and every iteration moves
    the cursor. *)
Theorem scan_reaches_end text :
  ∃ ts, MiniLexer.run text = (ts, MiniLexer.End_of_text).
Proof.
  pose proof (run_ends text) as H.
  destruct (MiniLexer.run text) as [ts e]. simpl in H. subst e. by exists ts.
Qed.

(** ** The message of an unterminated guard *)

Lemma replace_absent a b s : Py.contains a s = false → Py.replace a b s = s.
Proof.
  induction s as [|x s IH]; simpl; [done|].
  intros [Hx Hs]%orb_false_elim. by rewrite Hx, (IH Hs).
Qed.

Lemma replace_app a b s1 s2 :
  Py.replace a b (s1 +:+ s2) = Py.replace a b s1 +:+ Py.replace a b s2.
Proof.
  induction s1 as [|x s1 IH]; [done|].
  rewrite append_String. simpl. by rewrite IH.
Qed.

(** X24. When a module closes under the guard pushed for a directive
    and a name that hold no equals sign, the exception names the guard
    as the source wrote it: the directive, a blank, the name. *)
Theorem unterminated_guard_message l t directive guard_name :
  tok_action t = A_end_module →
  last (current_define l) = Some (directive +:+ "=" +:+ guard_name) →
  Py.contains "=" directive = false →
  Py.contains "=" guard_name = false →
  step l t =
  Raise (Exception ("'" +:+ directive +:+ " " +:+ guard_name
                      +:+ "' is not terminated with a matching '`endif'")).
Proof.
  intros Ha Hlast Hd Hn.
  rewrite (step_end_module_open _ _ _ Ha Hlast). unfold unterminated_msg.
  rewrite replace_app, (replace_absent _ _ _ Hd), append_char. simpl.
  by rewrite (replace_absent _ _ _ Hn), append_cons_assoc.
Qed.

Lemma unterminated_guard_message_witness :
  step (locals_after (take 4 (tokens_of scenario_C)))
       (Token 42 A_end_module []) =
  Raise (Exception ("'" +:+ "`ifdef" +:+ " " +:+ "FOO"
                      +:+ "' is not terminated with a matching '`endif'")).
Proof.
  apply (unterminated_guard_message
           (locals_after (take 4 (tokens_of scenario_C)))
           (Token 42 A_end_module []) "`ifdef" "FOO").
  - reflexivity.
  - vm_compute. reflexivity.
  - reflexivity.
  - reflexivity.
Defined.

(** ** The leading description of a module *)

Lemma closing_descriptions_cons acc t ts :
  closing_descriptions acc (t :: ts) =
  (if decide (tok_action t = A_end_module) then [acc] else [])
  ++ closing_descriptions (description_step acc t) ts.
Proof. simpl. unfold description_step. by destruct (tok_action t). Qed.

Lemma step_descriptions l t l' inmod acc closed :
  step l t = Ok l' →
  allowed inmod (tok_action t) = true →
  description_inv l inmod acc closed →
  description_inv l' (next_inmod inmod (tok_action t)) (description_step acc t)
    (closed ++ if decide (tok_action t = A_end_module) then [acc] else []).
Proof.
  intros H Hal (HJ & Hacc & Hall). unfold description_inv, description_step in *.
  destruct (tok_action t) eqn:Ha; destruct inmod; try done.
  all: try solve [step_inv H Ha; rewrite app_nil_r; done].
  - (* metacomment, outside a module *)
    rewrite app_nil_r. unfold step in H. rewrite Ha, (HJ eq_refl) in H.
    unfold group in H. destruct (tok_groups t) as [|[s|] gs]; try done.
    simpl in H. inversion H; subst; simpl. repeat split; auto.
  - (* end_module *)
    destruct (step_end_module _ _ _ Ha H) as (Hd & _ & Ho).
    assert (Hrest : metacomments l' = [] ∧ last_item l' = None).
    { unfold step in H. rewrite Ha, Hd in H. simpl in H. by inversion H. }
    destruct Hrest as [-> ->]. rewrite Ho, fmap_app, Hall. simpl.
    by rewrite Hacc.
Qed.

Lemma loop_descriptions ts : ∀ l l' inmod acc closed,
  loop l ts = Ok l' → accepts inmod ts →
  description_inv l inmod acc closed →
  ∃ inmod' acc',
    description_inv l' inmod' acc' (closed ++ closing_descriptions acc ts).
Proof.
  induction ts as [|t ts IH]; intros l l' inmod acc closed H Hacc Hinv.
  - simpl in *. inversion H; subst. rewrite app_nil_r. eauto.
  - simpl in H. destruct (step l t) as [l1|] eqn:E; [|done]. simpl in H.
    destruct Hacc as [Hal Hacc].
    rewrite closing_descriptions_cons, app_assoc.
    eapply IH; [exact H|exact Hacc|]. by eapply step_descriptions.
Qed.

(** X25. The description of each module returned is made of the
    metacomment lines met since the module before it closed, in their
    order, along a token sequence that keeps to the places of its
    tokens, as every sequence of the scanner does. *)
Theorem descriptions_lead_modules ts (ms : list VerilogModule) :
  accepts false ts →
  parse_tokens ts = Ok ms →
  m_desc <$> ms = closing_descriptions [] ts.
Proof.
  intros Hacc. unfold parse_tokens.
  destruct (loop initial ts) as [l|] eqn:El; [|done]. intros [= <-].
  destruct (loop_descriptions ts initial l false [] [] El Hacc)
    as (inmod' & acc' & _ & _ & Hall); [done|].
  simpl in Hall. unfold returned. by rewrite <- list_fmap_compose.
Qed.

Lemma descriptions_lead_modules_witness :
  m_desc <$> [plain_described "p" [" first"; " more"]
                [input_port "a" " [1:0]" None];
              plain_described "q" [" second"] []]
  = closing_descriptions [] (tokens_of described_modules).
Proof.
  apply (descriptions_lead_modules (tokens_of described_modules)).
  - vm_compute. tauto.
  - vm_compute. reflexivity.
Defined.
